(** * ngfd settings loader ([src/ngf/settings.c]): a shallow embedding

    The development follows the C file top-down: the GLib string
    primitives the loader relies on, the group identifier parser, the key
    file, the property resolver with its memoisation list, the resource
    reference parsers, the event materialiser and finally [load_settings].

    C strings are Rocq [string]s, a [NULL] pointer of type [gchar*] is
    [None], a [GList*] is a [list] (the empty list is the [NULL] list), a
    [GHashTable] keyed by strings is a [gmap string _]. *)

From Stdlib Require Import ZArith Ascii String.
From stdpp Require Import gmap strings list fin_maps.

Local Open Scope Z_scope.

(** ** GLib and libc string primitives *)

Module GLib.

(** [g_str_has_prefix (str, prefix)]. *)
Fixpoint g_str_has_prefix (str prefix : string) {struct prefix} : bool :=
  match prefix with
  | EmptyString => true
  | String p prefix' =>
      match str with
      | String c str' => if Ascii.eqb c p then g_str_has_prefix str' prefix' else false
      | EmptyString => false
      end
  end.

(** Pointer arithmetic [str + n] on a string of length at least [n]. *)
Fixpoint advance (n : nat) (str : string) : string :=
  match n, str with
  | O, _ => str
  | S n', String _ str' => advance n' str'
  | S _, EmptyString => EmptyString
  end.

(** The body of [g_strsplit] for a one-character delimiter: [cuts] is
    the value of [max_tokens] after the pre-decrement of
    [while (--max_tokens && s)]; the text up to each occurrence of the
    delimiter becomes a token, the remainder is the last token. *)
Fixpoint split_loop (delim : ascii) (cuts : Z) (s : string) : list string :=
  match s with
  | EmptyString => [EmptyString]
  | String c r =>
      if cuts <=? 0 then [s]
      else if Ascii.eqb c delim then EmptyString :: split_loop delim (cuts - 1) r
      else match split_loop delim cuts r with
           | t :: ts => String c t :: ts
           | [] => [String c EmptyString]
           end
  end.

Definition G_MAXINT : Z := 2147483647.

(** [g_strsplit (string, delimiter, max_tokens)] for a non-[NULL]
    [string]: the empty string gives the empty vector, [max_tokens < 1]
    means no limit. *)
Definition g_strsplit (s : string) (delim : ascii) (max_tokens : Z) : list string :=
  match s with
  | EmptyString => []
  | _ => split_loop delim ((if max_tokens <? 1 then G_MAXINT else max_tokens) - 1) s
  end.

Definition is_digit (c : ascii) : bool :=
  let n := nat_of_ascii c in (48 <=? n)%nat && (n <=? 57)%nat.

Definition digit_value (c : ascii) : Z := Z.of_nat (nat_of_ascii c) - 48.

(** [isspace] in the C locale. *)
Definition is_space (c : ascii) : bool :=
  let n := nat_of_ascii c in (n =? 32)%nat || ((9 <=? n)%nat && (n <=? 13)%nat).

Fixpoint skip_spaces (s : string) : string :=
  match s with
  | String c r => if is_space c then skip_spaces r else s
  | EmptyString => s
  end.

Fixpoint read_digits (acc : Z) (s : string) : Z :=
  match s with
  | String c r => if is_digit c then read_digits (10 * acc + digit_value c) r else acc
  | EmptyString => acc
  end.

(** The number a decimal prefix denotes: leading white space, an optional
    sign, then the longest run of decimal digits; [0] when there is
    none. *)
Definition decimal_prefix (s : string) : Z :=
  match skip_spaces s with
  | String "-"%char r => - read_digits 0 r
  | String "+"%char r => read_digits 0 r
  | r => read_digits 0 r
  end.

Definition LONG_MAX : Z := 9223372036854775807.
Definition LONG_MIN : Z := -9223372036854775808.

(** [strtol (s, NULL, 10)] on a 64-bit [long]: the number of the decimal
    prefix, held to the range of [long]. *)
Definition strtol (s : string) : Z :=
  Z.max LONG_MIN (Z.min LONG_MAX (decimal_prefix s)).

(** The conversion of a [long] to a 32-bit [int]: the low 32 bits, read
    as a signed number. *)
Definition to_gint (z : Z) : Z :=
  (z + 2147483648) mod 4294967296 - 2147483648.

(** [atoi], as the C library computes it: [(int) strtol (s, NULL, 10)].
    A number that fits an [int] is returned as it is; a larger one is cut
    to its low 32 bits ([atoi "4294967296"] is [0]). *)
Definition atoi (s : string) : Z := to_gint (strtol s).

End GLib.
Import GLib.

(** ** Group identifiers: [_strip_group_type], [_parse_group_name],
       [_parse_group_parent] *)

Fixpoint skip_type_tag (ptr : string) : string :=
  match ptr with
  | EmptyString => ptr
  | String c r => if Ascii.eqb c " "%char then ptr else skip_type_tag r
  end.

Definition _strip_group_type (group : string) : option string :=
  let ptr := skip_type_tag group in
  let ptr := match ptr with
             | String c r => if Ascii.eqb c " "%char then r else ptr
             | EmptyString => ptr
             end in
  match ptr with
  | EmptyString => None
  | _ => Some ptr
  end.

Definition _parse_group_name (group : string) : option string :=
  match _strip_group_type group with
  | None => None
  | Some name =>
      match g_strsplit name "@"%char 2 with
      | [] => None
      | split0 :: _ => Some split0
      end
  end.

Definition _parse_group_parent (group : string) : option string :=
  match _strip_group_type group with
  | None => None
  | Some name =>
      match g_strsplit name "@"%char 2 with
      | _ :: split1 :: _ => Some split1
      | _ => None
      end
  end.

(** The identifier of the specification: the two parsers of the source
    applied to the same raw group string. *)
Record GroupIdentifier := mkGroupIdentifier {
  gi_name : string;
  gi_parent : option string
}.

Definition parse_group_identifier (raw : string) : option GroupIdentifier :=
  match _parse_group_name raw with
  | None => None
  | Some name => Some (mkGroupIdentifier name (_parse_group_parent raw))
  end.

Fixpoint has_char (c : ascii) (s : string) : bool :=
  match s with
  | EmptyString => false
  | String a r => Ascii.eqb a c || has_char c r
  end.

(** ** The key file ([GKeyFile])

    GLib's key file is modelled at the level of its lookup contract: an
    ordered collection of named groups, each holding raw text values by
    key; the typed getters interpret the raw text and report the GLib
    error code when the group or key is missing or the text is not of the
    requested type. *)

Inductive GKeyFileError :=
| G_KEY_FILE_ERROR_GROUP_NOT_FOUND
| G_KEY_FILE_ERROR_KEY_NOT_FOUND
| G_KEY_FILE_ERROR_INVALID_VALUE.

Inductive KeyResult (A : Type) :=
| KeyOk (value : A)
| KeyError (code : GKeyFileError).
Arguments KeyOk {A} value.
Arguments KeyError {A} code.

Record GKeyFile := mkGKeyFile {
  kf_groups : list (string * list (string * string))
}.

Fixpoint assoc {A : Type} (key : string) (l : list (string * A)) : option A :=
  match l with
  | [] => None
  | (k, v) :: l' => if String.eqb k key then Some v else assoc key l'
  end.

Definition g_key_file_get_groups (k : GKeyFile) : list string :=
  map fst (kf_groups k).

Definition g_key_file_get_value (k : GKeyFile) (group key : string) : KeyResult string :=
  match assoc group (kf_groups k) with
  | None => KeyError G_KEY_FILE_ERROR_GROUP_NOT_FOUND
  | Some entries =>
      match assoc key entries with
      | None => KeyError G_KEY_FILE_ERROR_KEY_NOT_FOUND
      | Some raw => KeyOk raw
      end
  end.

Definition g_key_file_get_string (k : GKeyFile) (group key : string) : KeyResult string :=
  g_key_file_get_value k group key.

Fixpoint all_digits (s : string) : bool :=
  match s with
  | EmptyString => true
  | String c r => is_digit c && all_digits r
  end.

(** The raw text is an integer when it is an optional sign followed by
    decimal digits only and the value fits a [gint]. *)
Definition parse_integer (raw : string) : option Z :=
  let body := match raw with
              | String "-"%char r => r
              | String "+"%char r => r
              | _ => raw
              end in
  match body with
  | EmptyString => None
  | _ => if all_digits body
         then let v := decimal_prefix raw in
              if (- 2147483648 <=? v) && (v <=? 2147483647) then Some v else None
         else None
  end.

Definition parse_boolean (raw : string) : option bool :=
  if String.eqb raw "true" || String.eqb raw "1" then Some true
  else if String.eqb raw "false" || String.eqb raw "0" then Some false
  else None.

Definition typed {A : Type} (parse : string -> option A) (r : KeyResult string) : KeyResult A :=
  match r with
  | KeyError code => KeyError code
  | KeyOk raw =>
      match parse raw with
      | Some v => KeyOk v
      | None => KeyError G_KEY_FILE_ERROR_INVALID_VALUE
      end
  end.

Definition g_key_file_get_integer (k : GKeyFile) (group key : string) : KeyResult Z :=
  typed parse_integer (g_key_file_get_value k group key).

Definition g_key_file_get_boolean (k : GKeyFile) (group key : string) : KeyResult bool :=
  typed parse_boolean (g_key_file_get_value k group key).

(** The getters called with a [NULL] error location: [NULL] (resp. [0])
    on any error. *)
Definition get_string_or_null (k : GKeyFile) (group key : string) : option string :=
  match g_key_file_get_string k group key with
  | KeyOk s => Some s
  | KeyError _ => None
  end.

Definition get_integer_or_zero (k : GKeyFile) (group key : string) : Z :=
  match g_key_file_get_integer k group key with
  | KeyOk v => v
  | KeyError _ => 0
  end.

(** ** Property lists ([NProplist]) *)

(** Modelled from the spec: [proplist.c] is not part of the sources at
    hand. A property value is a string, an integer or a boolean; a string
    value holds the [gchar*] it was set from, which is [NULL] for the
    schema default of a string field. *)
Inductive NValue :=
| NString (s : option string)
| NInt (i : Z)
| NBool (b : bool).

(** Modelled from the spec: the property set is a mapping from field name
    to value; a pointer to it ([NProplist*]) may be [NULL]. *)
Abbreviation NProplist := (gmap string NValue).

(** Modelled from the spec: [n_proplist_new] of [proplist.c], the empty
    set. *)
Definition n_proplist_new : NProplist := ∅.

(** Modelled from the spec: the three setters of [proplist.c]; setting a
    field replaces the value it had. *)
Definition n_proplist_set_string (proplist : NProplist) (key : string) (value : option string) : NProplist :=
  <[key := NString value]> proplist.

Definition n_proplist_set_int (proplist : NProplist) (key : string) (value : Z) : NProplist :=
  <[key := NInt value]> proplist.

Definition n_proplist_set_bool (proplist : NProplist) (key : string) (value : bool) : NProplist :=
  <[key := NBool value]> proplist.

(** Modelled from the spec: copying the parent's set; nothing is made up
    for a set that does not exist (the copy of [NULL] is [NULL]). *)
Definition n_proplist_copy (source : option NProplist) : option NProplist := source.

(** Modelled from the spec: the source is overlaid on the target field by
    field, the source's values replacing the target's; a [NULL] target
    stays [NULL]. *)
Definition n_proplist_merge (target : option NProplist) (source : NProplist) : option NProplist :=
  match target with
  | None => None
  | Some t => Some (source ∪ t)
  end.

(** Modelled from the spec: the readers of [proplist.c]; a field that is
    missing, or that holds a value of another type, reads as [FALSE], [0]
    or [NULL], and so does every field of a [NULL] set. *)
Definition n_proplist_get (proplist : option NProplist) (key : string) : option NValue :=
  match proplist with
  | None => None
  | Some p => p !! key
  end.

Definition n_proplist_get_bool (proplist : option NProplist) (key : string) : bool :=
  match n_proplist_get proplist key with
  | Some (NBool b) => b
  | _ => false
  end.

Definition n_proplist_get_int (proplist : option NProplist) (key : string) : Z :=
  match n_proplist_get proplist key with
  | Some (NInt i) => i
  | _ => 0
  end.

Definition n_proplist_get_string (proplist : option NProplist) (key : string) : option string :=
  match n_proplist_get proplist key with
  | Some (NString s) => s
  | _ => None
  end.

(** ** The static schema ([event_entries]) *)

Inductive KeyEntryType :=
| KEY_ENTRY_TYPE_STRING
| KEY_ENTRY_TYPE_INT
| KEY_ENTRY_TYPE_BOOL.

Record KeyEntry := mkKeyEntry {
  ke_type : KeyEntryType;
  ke_key : string;
  ke_def_int : Z;
  ke_def_str : option string
}.

Definition event_entries : list KeyEntry :=
  [ mkKeyEntry KEY_ENTRY_TYPE_INT    "max_timeout"           0    None;
    mkKeyEntry KEY_ENTRY_TYPE_BOOL   "allow_custom"          0    None;
    mkKeyEntry KEY_ENTRY_TYPE_INT    "dummy"                 0    None;
    mkKeyEntry KEY_ENTRY_TYPE_BOOL   "audio_enabled"         0    None;
    mkKeyEntry KEY_ENTRY_TYPE_BOOL   "audio_repeat"          0    None;
    mkKeyEntry KEY_ENTRY_TYPE_INT    "audio_max_repeats"     0    None;
    mkKeyEntry KEY_ENTRY_TYPE_STRING "sound"                 0    None;
    mkKeyEntry KEY_ENTRY_TYPE_BOOL   "silent_enabled"        0    None;
    mkKeyEntry KEY_ENTRY_TYPE_STRING "volume"                0    None;
    mkKeyEntry KEY_ENTRY_TYPE_STRING "event_id"              0    None;
    mkKeyEntry KEY_ENTRY_TYPE_BOOL   "audio_tonegen_enabled" 0    None;
    mkKeyEntry KEY_ENTRY_TYPE_INT    "audio_tonegen_pattern" (-1) None;
    mkKeyEntry KEY_ENTRY_TYPE_BOOL   "vibration_enabled"     0    None;
    mkKeyEntry KEY_ENTRY_TYPE_BOOL   "lookup_pattern"        0    None;
    mkKeyEntry KEY_ENTRY_TYPE_STRING "vibration"             0    None;
    mkKeyEntry KEY_ENTRY_TYPE_BOOL   "led_enabled"           0    None;
    mkKeyEntry KEY_ENTRY_TYPE_STRING "led_pattern"           0    None;
    mkKeyEntry KEY_ENTRY_TYPE_BOOL   "backlight_enabled"     0    None ].

(** A [gint] used as a [gboolean]. *)
Definition gboolean_of_gint (i : Z) : bool := negb (i =? 0).

(** ** The property resolver *)

Definition _add_property_int (proplist : NProplist) (k : GKeyFile) (group key : string)
    (def_value : Z) (set_default : bool) : NProplist :=
  match g_key_file_get_integer k group key with
  | KeyOk result => n_proplist_set_int proplist key result
  | KeyError _ =>
      if set_default then n_proplist_set_int proplist key def_value else proplist
  end.

Definition _add_property_bool (proplist : NProplist) (k : GKeyFile) (group key : string)
    (def_value : bool) (set_default : bool) : NProplist :=
  match g_key_file_get_boolean k group key with
  | KeyOk result => n_proplist_set_bool proplist key result
  | KeyError _ =>
      if set_default then n_proplist_set_bool proplist key def_value else proplist
  end.

Definition _add_property_string (proplist : NProplist) (k : GKeyFile) (group key : string)
    (def_value : option string) (set_default : bool) : NProplist :=
  match g_key_file_get_string k group key with
  | KeyOk result => n_proplist_set_string proplist key (Some result)
  | KeyError _ =>
      if set_default then n_proplist_set_string proplist key def_value else proplist
  end.

Fixpoint _event_is_done (done_list : list string) (name : string) : bool :=
  match done_list with
  | [] => false
  | data :: iter => if String.eqb data name then true else _event_is_done iter name
  end.

(** The part of [SettingsData] that resolution mutates, with the
    [events_done] list the caller passes by reference. *)
Record Resolver := mkResolver {
  sd_events : gmap string (option NProplist);
  events_done : list string
}.

(** One iteration of the loop over [event_entries]. *)
Definition add_entry (k : GKeyFile) (group : string) (is_base : bool)
    (proplist : NProplist) (entry : KeyEntry) : NProplist :=
  match ke_type entry with
  | KEY_ENTRY_TYPE_STRING =>
      _add_property_string proplist k group (ke_key entry) (ke_def_str entry) is_base
  | KEY_ENTRY_TYPE_INT =>
      _add_property_int proplist k group (ke_key entry) (ke_def_int entry) is_base
  | KEY_ENTRY_TYPE_BOOL =>
      _add_property_bool proplist k group (ke_key entry)
        (gboolean_of_gint (ke_def_int entry)) is_base
  end.

(** The property set one pass builds from the event's own group. *)
Definition scan_entries (k : GKeyFile) (group : string) (is_base : bool) : NProplist :=
  foldl (add_entry k group is_base) n_proplist_new event_entries.

(** [g_hash_table_lookup]: [NULL] when the key is missing (or bound to
    [NULL]). *)
Definition g_hash_table_lookup {A : Type} (table : gmap string (option A)) (key : string) : option A :=
  match table !! key with
  | Some v => v
  | None => None
  end.

(** [_parse_single_event]. The C function recurses on the parent with no
    bound; [fuel] bounds the depth of that recursion and [None] means the
    bound was reached. Names are strings here, so the test [name == NULL]
    has no counterpart. *)
Fixpoint _parse_single_event (fuel : nat) (groups : gmap string string) (k : GKeyFile)
    (st : Resolver) (name : string) : option Resolver :=
  match fuel with
  | O => None
  | S fuel' =>
      if _event_is_done (events_done st) name then Some st
      else match groups !! name with
           | None => Some st
           | Some group =>
               let parent := _parse_group_parent group in
               let after_parent :=
                 match parent with
                 | Some p => _parse_single_event fuel' groups k st p
                 | None => Some st
                 end in
               match after_parent with
               | None => None
               | Some st1 =>
                   let is_base := match parent with None => true | Some _ => false end in
                   let proplist := scan_entries k group is_base in
                   let proplist :=
                     match parent with
                     | Some p =>
                         let copy := n_proplist_copy (g_hash_table_lookup (sd_events st1) p) in
                         n_proplist_merge copy proplist
                     | None => Some proplist
                     end in
                   Some (mkResolver (<[name := proplist]> (sd_events st1))
                                    (events_done st1 ++ [name]))
               end
           end
  end.

(** ** Resource references and the context

    Modelled from the spec: [event.h] and [context.h] are not part of the
    sources at hand. The records below have the fields [settings.c]
    assigns; a field the parser leaves alone keeps the zero of a freshly
    allocated structure ([0], [NULL], the empty list). *)

Inductive SoundPathType := SOUND_PATH_TYPE_PROFILE | SOUND_PATH_TYPE_FILENAME.

Record SoundPath := mkSoundPath {
  sp_type : SoundPathType;
  sp_filename : option string;
  sp_profile : option string;
  sp_key : option string
}.

Inductive VolumeType := VOLUME_TYPE_PROFILE | VOLUME_TYPE_FIXED | VOLUME_TYPE_LINEAR.

Record Volume := mkVolume {
  vol_type : VolumeType;
  vol_level : Z;
  vol_linear : list Z;
  vol_profile : option string;
  vol_key : option string
}.

Inductive VibrationPatternType :=
| VIBRATION_PATTERN_TYPE_PROFILE
| VIBRATION_PATTERN_TYPE_FILENAME
| VIBRATION_PATTERN_TYPE_INTERNAL.

Record VibrationPattern := mkVibrationPattern {
  vp_type : VibrationPatternType;
  vp_filename : option string;
  vp_pattern : Z;
  vp_profile : option string;
  vp_key : option string
}.

Record EventDefinition := mkEventDefinition {
  long_event : option string;
  short_event : option string;
  meeting_event : option string
}.

Record Event := mkEvent {
  audio_enabled : bool;
  vibration_enabled : bool;
  leds_enabled : bool;
  backlight_enabled : bool;
  allow_custom : bool;
  max_timeout : Z;
  lookup_pattern : bool;
  silent_enabled : bool;
  event_id : option string;
  tone_generator_enabled : bool;
  tone_generator_pattern : Z;
  repeat : bool;
  num_repeats : Z;
  led_pattern : option string;
  sounds : list SoundPath;
  volume : option Volume;
  patterns : list VibrationPattern
}.

Record Context := mkContext {
  required_plugins : list string;
  patterns_path : option string;
  sound_path : option string;
  audio_buffer_time : Z;
  audio_latency_time : Z;
  system_volume : list Z;
  definitions : gmap string EventDefinition;
  ctx_events : gmap string Event;
  ctx_sounds : list SoundPath;
  ctx_volumes : list Volume;
  ctx_patterns : list VibrationPattern
}.

#[global] Instance SoundPathType_eq_dec : EqDecision SoundPathType.
Proof. solve_decision. Defined.
#[global] Instance SoundPath_eq_dec : EqDecision SoundPath.
Proof. solve_decision. Defined.
#[global] Instance VolumeType_eq_dec : EqDecision VolumeType.
Proof. solve_decision. Defined.
#[global] Instance Volume_eq_dec : EqDecision Volume.
Proof. solve_decision. Defined.
#[global] Instance VibrationPatternType_eq_dec : EqDecision VibrationPatternType.
Proof. solve_decision. Defined.
#[global] Instance VibrationPattern_eq_dec : EqDecision VibrationPattern.
Proof. solve_decision. Defined.

Definition set_sounds (ctx : Context) (l : list SoundPath) : Context :=
  mkContext (required_plugins ctx) (patterns_path ctx) (sound_path ctx)
    (audio_buffer_time ctx) (audio_latency_time ctx) (system_volume ctx)
    (definitions ctx) (ctx_events ctx) l (ctx_volumes ctx) (ctx_patterns ctx).

Definition set_volumes (ctx : Context) (l : list Volume) : Context :=
  mkContext (required_plugins ctx) (patterns_path ctx) (sound_path ctx)
    (audio_buffer_time ctx) (audio_latency_time ctx) (system_volume ctx)
    (definitions ctx) (ctx_events ctx) (ctx_sounds ctx) l (ctx_patterns ctx).

Definition set_patterns (ctx : Context) (l : list VibrationPattern) : Context :=
  mkContext (required_plugins ctx) (patterns_path ctx) (sound_path ctx)
    (audio_buffer_time ctx) (audio_latency_time ctx) (system_volume ctx)
    (definitions ctx) (ctx_events ctx) (ctx_sounds ctx) (ctx_volumes ctx) l.

Definition set_events (ctx : Context) (m : gmap string Event) : Context :=
  mkContext (required_plugins ctx) (patterns_path ctx) (sound_path ctx)
    (audio_buffer_time ctx) (audio_latency_time ctx) (system_volume ctx)
    (definitions ctx) m (ctx_sounds ctx) (ctx_volumes ctx) (ctx_patterns ctx).

Definition set_definitions (ctx : Context) (m : gmap string EventDefinition) : Context :=
  mkContext (required_plugins ctx) (patterns_path ctx) (sound_path ctx)
    (audio_buffer_time ctx) (audio_latency_time ctx) (system_volume ctx)
    m (ctx_events ctx) (ctx_sounds ctx) (ctx_volumes ctx) (ctx_patterns ctx).

Definition set_required_plugins (ctx : Context) (l : list string) : Context :=
  mkContext l (patterns_path ctx) (sound_path ctx)
    (audio_buffer_time ctx) (audio_latency_time ctx) (system_volume ctx)
    (definitions ctx) (ctx_events ctx) (ctx_sounds ctx) (ctx_volumes ctx) (ctx_patterns ctx).

Definition set_general (ctx : Context) (pp sp : option string) (bt lt : Z) : Context :=
  mkContext (required_plugins ctx) pp sp bt lt (system_volume ctx)
    (definitions ctx) (ctx_events ctx) (ctx_sounds ctx) (ctx_volumes ctx) (ctx_patterns ctx).

Definition set_system_volume (ctx : Context) (v : list Z) : Context :=
  mkContext (required_plugins ctx) (patterns_path ctx) (sound_path ctx)
    (audio_buffer_time ctx) (audio_latency_time ctx) v
    (definitions ctx) (ctx_events ctx) (ctx_sounds ctx) (ctx_volumes ctx) (ctx_patterns ctx).

(** Modelled from the spec: [context.c] is not part of the sources at
    hand. Every parsed reference is registered with the context, which
    keeps one instance of each distinct reference and hands back the
    shared one; a [NULL] reference is not registered. *)
Definition intern {A : Type} `{EqDecision A} (pool : list A) (x : A) : list A :=
  if decide (x ∈ pool) then pool else pool ++ [x].

Definition context_add_sound_path (ctx : Context) (sound_path : option SoundPath)
    : Context * option SoundPath :=
  match sound_path with
  | None => (ctx, None)
  | Some s => (set_sounds ctx (intern (ctx_sounds ctx) s), Some s)
  end.

Definition context_add_volume (ctx : Context) (volume : option Volume)
    : Context * option Volume :=
  match volume with
  | None => (ctx, None)
  | Some v => (set_volumes ctx (intern (ctx_volumes ctx) v), Some v)
  end.

Definition context_add_pattern (ctx : Context) (pattern : option VibrationPattern)
    : Context * option VibrationPattern :=
  match pattern with
  | None => (ctx, None)
  | Some p => (set_patterns ctx (intern (ctx_patterns ctx) p), Some p)
  end.

(** ** The file system seen by the loader *)

Record World := mkWorld {
  existing_paths : list string;
  loadable_files : list (string * GKeyFile)
}.

Definition g_file_test_exists (w : World) (path : string) : bool :=
  bool_decide (path ∈ existing_paths w).

Definition g_key_file_load_from_file (w : World) (filename : string) : option GKeyFile :=
  assoc filename (loadable_files w).

Fixpoint strip_leading_separators (s : string) : string :=
  match s with
  | String "/"%char r => strip_leading_separators r
  | _ => s
  end.

Fixpoint strip_trailing_separators (s : string) : string :=
  match s with
  | EmptyString => EmptyString
  | String c r =>
      match strip_trailing_separators r with
      | EmptyString => if Ascii.eqb c "/"%char then EmptyString else String c EmptyString
      | r' => String c r'
      end
  end.

(** [g_build_filename (search_path, basename, NULL)]: a [NULL] first
    element ends the argument list at once and gives the empty path;
    empty elements are skipped; otherwise the two are joined by a single
    directory separator. *)
Definition g_build_filename (search_path : option string) (basename : string) : string :=
  match search_path with
  | None => EmptyString
  | Some dir =>
      match dir, basename with
      | EmptyString, _ => basename
      | _, EmptyString => dir
      | _, _ => strip_trailing_separators dir +:+ "/" +:+ strip_leading_separators basename
      end
  end.

Definition _check_path (w : World) (basename : string) (search_path : option string)
    : option string :=
  if g_file_test_exists w basename then Some basename
  else let path := g_build_filename search_path basename in
       if g_file_test_exists w path then Some path else None.

Definition _strip_prefix (str prefix : string) : option string :=
  if g_str_has_prefix str prefix then Some (advance (String.length prefix) str) else None.

(** [_parse_profile_key]: [Some (key, profile)] stands for [TRUE] with
    the two out-parameters, [None] for [FALSE]. *)
Definition _parse_profile_key (key : option string) : option (string * option string) :=
  match key with
  | None => None
  | Some key =>
      match g_strsplit key "@"%char 2 with
      | [] => None
      | split0 :: rest => Some (split0, head rest)
      end
  end.

(** ** Resource reference parsers *)

(** [_parse_sound_path]; the entries it is called on come out of
    [g_strsplit] and are never [NULL]. *)
Definition _parse_sound_path (w : World) (ctx : Context) (str : string)
    : Context * option SoundPath :=
  if g_str_has_prefix str "profile:" then
    let stripped := _strip_prefix str "profile:" in
    match _parse_profile_key stripped with
    | None => (ctx, None)
    | Some (key, profile) =>
        context_add_sound_path ctx
          (Some (mkSoundPath SOUND_PATH_TYPE_PROFILE None profile (Some key)))
    end
  else if g_str_has_prefix str "filename:" then
    match _strip_prefix str "filename:" with
    | None => (ctx, None)
    | Some stripped =>
        match _check_path w stripped (sound_path ctx) with
        | None => (ctx, None)
        | Some filename =>
            context_add_sound_path ctx
              (Some (mkSoundPath SOUND_PATH_TYPE_FILENAME (Some filename) None None))
        end
    end
  else context_add_sound_path ctx None.

(** The loop of [_create_sound_paths] over the split entries. *)
Fixpoint sound_paths_loop (w : World) (ctx : Context) (entries : list string)
    (result : list SoundPath) : Context * list SoundPath :=
  match entries with
  | [] => (ctx, result)
  | s :: entries' =>
      match _parse_sound_path w ctx s with
      | (ctx', Some sound_path) => sound_paths_loop w ctx' entries' (result ++ [sound_path])
      | (ctx', None) => sound_paths_loop w ctx' entries' result
      end
  end.

Definition _create_sound_paths (w : World) (ctx : Context) (str : option string)
    : Context * list SoundPath :=
  match str with
  | None => (ctx, [])
  | Some str =>
      match g_strsplit str ";"%char (-1) with
      | [] => (ctx, [])
      | sounds => sound_paths_loop w ctx sounds []
      end
  end.

Definition _create_volume (ctx : Context) (str : option string) : Context * option Volume :=
  match str with
  | None => (ctx, None)
  | Some str =>
      if g_str_has_prefix str "profile:" then
        let stripped := _strip_prefix str "profile:" in
        match _parse_profile_key stripped with
        | None => (ctx, None)
        | Some (key, profile) =>
            context_add_volume ctx
              (Some (mkVolume VOLUME_TYPE_PROFILE 0 [0; 0; 0] profile (Some key)))
        end
      else if g_str_has_prefix str "fixed:" then
        match _strip_prefix str "fixed:" with
        | None => (ctx, None)
        | Some stripped =>
            context_add_volume ctx
              (Some (mkVolume VOLUME_TYPE_FIXED (atoi stripped) [0; 0; 0] None None))
        end
      else if g_str_has_prefix str "linear:" then
        match _strip_prefix str "linear:" with
        | None => (ctx, None)
        | Some stripped =>
            match g_strsplit stripped ";"%char (-1) with
            | item0 :: item1 :: item2 :: _ =>
                context_add_volume ctx
                  (Some (mkVolume VOLUME_TYPE_LINEAR 100
                           [atoi item0; atoi item1; atoi item2] None None))
            | _ => (ctx, None)
            end
        end
      else context_add_volume ctx None
  end.

Definition _parse_pattern (w : World) (ctx : Context) (str : string)
    : Context * option VibrationPattern :=
  if g_str_has_prefix str "profile:" then
    let stripped := _strip_prefix str "profile:" in
    match _parse_profile_key stripped with
    | None => (ctx, None)
    | Some (key, profile) =>
        context_add_pattern ctx
          (Some (mkVibrationPattern VIBRATION_PATTERN_TYPE_PROFILE None 0 profile (Some key)))
    end
  else if g_str_has_prefix str "filename:" then
    match _strip_prefix str "filename:" with
    | None => (ctx, None)
    | Some stripped =>
        match _check_path w stripped (patterns_path ctx) with
        | None => (ctx, None)
        | Some filename =>
            context_add_pattern ctx
              (Some (mkVibrationPattern VIBRATION_PATTERN_TYPE_FILENAME (Some filename) 0 None None))
        end
    end
  else if g_str_has_prefix str "internal:" then
    match _strip_prefix str "internal:" with
    | None => (ctx, None)
    | Some stripped =>
        context_add_pattern ctx
          (Some (mkVibrationPattern VIBRATION_PATTERN_TYPE_INTERNAL None (atoi stripped) None None))
    end
  else context_add_pattern ctx None.

Fixpoint patterns_loop (w : World) (ctx : Context) (entries : list string)
    (result : list VibrationPattern) : Context * list VibrationPattern :=
  match entries with
  | [] => (ctx, result)
  | i :: entries' =>
      match _parse_pattern w ctx i with
      | (ctx', Some pattern) => patterns_loop w ctx' entries' (result ++ [pattern])
      | (ctx', None) => patterns_loop w ctx' entries' result
      end
  end.

Definition _create_patterns (w : World) (ctx : Context) (str : option string)
    : Context * list VibrationPattern :=
  match str with
  | None => (ctx, [])
  | Some str =>
      match g_strsplit str ";"%char (-1) with
      | [] => (ctx, [])
      | patterns => patterns_loop w ctx patterns []
      end
  end.

(** ** The event materialiser *)

Definition finalize_event (w : World) (ctx : Context) (name : string)
    (proplist : option NProplist) : Context :=
  let '(ctx1, sounds) := _create_sound_paths w ctx (n_proplist_get_string proplist "sound") in
  let '(ctx2, volume) := _create_volume ctx1 (n_proplist_get_string proplist "volume") in
  let '(ctx3, patterns) := _create_patterns w ctx2 (n_proplist_get_string proplist "vibration") in
  let event :=
    mkEvent (n_proplist_get_bool proplist "audio_enabled")
            (n_proplist_get_bool proplist "vibration_enabled")
            (n_proplist_get_bool proplist "led_enabled")
            (n_proplist_get_bool proplist "backlight_enabled")
            (n_proplist_get_bool proplist "allow_custom")
            (n_proplist_get_int proplist "max_timeout")
            (n_proplist_get_bool proplist "lookup_pattern")
            (n_proplist_get_bool proplist "silent_enabled")
            (n_proplist_get_string proplist "event_id")
            (n_proplist_get_bool proplist "audio_tonegen_enabled")
            (n_proplist_get_int proplist "audio_tonegen_pattern")
            (n_proplist_get_bool proplist "audio_repeat")
            (n_proplist_get_int proplist "audio_max_repeats")
            (n_proplist_get_string proplist "led_pattern")
            sounds volume patterns in
  set_events ctx3 (<[name := event]> (ctx_events ctx3)).

(** ** The driver *)

(** What running a piece of the loader can end in: it returns, it
    dereferences a [NULL] pointer, or the recursion bound was reached. *)
Inductive Run (A : Type) :=
| Returns (a : A)
| NullDereference
| OutOfFuel.
Arguments Returns {A} a.
Arguments NullDereference {A}.
Arguments OutOfFuel {A}.

Definition run_bind {A B : Type} (m : Run A) (f : A -> Run B) : Run B :=
  match m with
  | Returns a => f a
  | NullDereference => NullDereference
  | OutOfFuel => OutOfFuel
  end.

Notation "'let*' x ':=' m 'in' f" := (run_bind m (fun x => f))
  (at level 10, x name, m at level 100, f at level 200).

Definition GROUP_GENERAL : string := "general".
Definition GROUP_DEFINITION : string := "definition".
Definition GROUP_EVENT : string := "event".

Definition _parse_required_plugins (ctx : Context) (k : GKeyFile) : Context :=
  match get_string_or_null k GROUP_GENERAL "plugins" with
  | None => ctx
  | Some value =>
      set_required_plugins ctx (required_plugins ctx ++ g_strsplit value " "%char (-1))
  end.

(** The loop [for (i=0;i<3;i++)] of [_parse_general]: the items present
    are stored one by one, the loop leaves at the first missing one. *)
Fixpoint store_items (i : nat) (count : nat) (items : list string) (arr : list Z) : list Z :=
  match count, items with
  | S count', item :: items' => store_items (S i) count' items' (<[i := atoi item]> arr)
  | _, _ => arr
  end.

(** [g_strsplit] called on a possibly [NULL] string, followed by the read
    of [split[0]]: GLib hands back [NULL] for a [NULL] string, and the
    read of its first element is a [NULL] dereference. *)
Definition g_strsplit_then_deref (s : option string) (delim : ascii) (max_tokens : Z)
    : Run (list string) :=
  match s with
  | None => NullDereference
  | Some s => Returns (g_strsplit s delim max_tokens)
  end.

Definition _parse_general (ctx : Context) (k : GKeyFile) : Run Context :=
  let ctx := _parse_required_plugins ctx k in
  let ctx := set_general ctx
               (get_string_or_null k GROUP_GENERAL "vibration_search_path")
               (get_string_or_null k GROUP_GENERAL "sound_search_path")
               (get_integer_or_zero k GROUP_GENERAL "buffer_time")
               (get_integer_or_zero k GROUP_GENERAL "latency_time") in
  let value := get_string_or_null k GROUP_GENERAL "system_volume" in
  let* split := g_strsplit_then_deref value ";"%char (-1) in
  Returns (set_system_volume ctx (store_items 0 3 split (system_volume ctx))).

Definition _parse_definitions (ctx : Context) (k : GKeyFile) : Context :=
  foldl (fun ctx group =>
           if g_str_has_prefix group GROUP_DEFINITION then
             match _parse_group_name group with
             | None => ctx
             | Some name =>
                 let def := mkEventDefinition (get_string_or_null k group "long")
                                              (get_string_or_null k group "short")
                                              (get_string_or_null k group "meeting") in
                 set_definitions ctx (<[name := def]> (definitions ctx))
             end
           else ctx)
        ctx (g_key_file_get_groups k).

(** The first loop of [_parse_events]: the map from event name to group. *)
Definition build_groups (k : GKeyFile) : gmap string string :=
  foldl (fun groups group =>
           if g_str_has_prefix group GROUP_EVENT then
             match _parse_group_name group with
             | None => groups
             | Some name => <[name := group]> groups
             end
           else groups)
        ∅ (g_key_file_get_groups k).

(** The second loop: every key of [groups] is resolved in turn. *)
Fixpoint resolve_all (fuel : nat) (groups : gmap string string) (k : GKeyFile)
    (st : Resolver) (keys : list string) : option Resolver :=
  match keys with
  | [] => Some st
  | key :: keys' =>
      match _parse_single_event fuel groups k st key with
      | None => None
      | Some st' => resolve_all fuel groups k st' keys'
      end
  end.

(** [_parse_events]. GLib leaves the iteration order of a hash table
    open; the tables are walked in the order of [map_to_list]. *)
Definition _parse_events (fuel : nat) (w : World) (ctx : Context) (k : GKeyFile) : Run Context :=
  let groups := build_groups k in
  match resolve_all fuel groups k (mkResolver ∅ []) (map fst (map_to_list groups)) with
  | None => OutOfFuel
  | Some st =>
      Returns (foldl (fun ctx kv => finalize_event w ctx (fst kv) (snd kv))
                     ctx (map_to_list (sd_events st)))
  end.

Definition conf_files : list string := ["/etc/ngf/ngf.ini"; "./ngf.ini"].

(** The loop of [load_settings] over [conf_files]. *)
Fixpoint first_loadable (w : World) (files : list string) : option GKeyFile :=
  match files with
  | [] => None
  | filename :: files' =>
      match g_key_file_load_from_file w filename with
      | Some key_file => Some key_file
      | None => first_loadable w files'
      end
  end.

Definition load_settings (fuel : nat) (w : World) (context : Context) : Run (bool * Context) :=
  match first_loadable w conf_files with
  | None => Returns (false, context)
  | Some key_file =>
      let* ctx1 := _parse_general context key_file in
      let ctx2 := _parse_definitions ctx1 key_file in
      let* ctx3 := _parse_events fuel w ctx2 key_file in
      Returns (true, ctx3)
  end.

(** ** Reference functions in which the properties are stated *)

(** What the typed getter chosen by an entry's type reads for it. *)
Definition read_entry (k : GKeyFile) (group : string) (entry : KeyEntry) : KeyResult NValue :=
  match ke_type entry with
  | KEY_ENTRY_TYPE_STRING =>
      match g_key_file_get_string k group (ke_key entry) with
      | KeyOk s => KeyOk (NString (Some s))
      | KeyError c => KeyError c
      end
  | KEY_ENTRY_TYPE_INT =>
      match g_key_file_get_integer k group (ke_key entry) with
      | KeyOk i => KeyOk (NInt i)
      | KeyError c => KeyError c
      end
  | KEY_ENTRY_TYPE_BOOL =>
      match g_key_file_get_boolean k group (ke_key entry) with
      | KeyOk b => KeyOk (NBool b)
      | KeyError c => KeyError c
      end
  end.

(** The schema default of an entry, as a value of the entry's type. *)
Definition entry_default (entry : KeyEntry) : NValue :=
  match ke_type entry with
  | KEY_ENTRY_TYPE_STRING => NString (ke_def_str entry)
  | KEY_ENTRY_TYPE_INT => NInt (ke_def_int entry)
  | KEY_ENTRY_TYPE_BOOL => NBool (gboolean_of_gint (ke_def_int entry))
  end.

(** What one entry contributes to the set a pass builds: the value read,
    else the schema default for a base event, else what was there. *)
Definition contribution (k : GKeyFile) (group : string) (is_base : bool)
    (entry : KeyEntry) (before : option NValue) : option NValue :=
  match read_entry k group entry with
  | KeyOk v => Some v
  | KeyError _ => if is_base then Some (entry_default entry) else before
  end.

(** The set [_parse_single_event] stores for the event of [group] once
    the resolution of its parent, if it declares one, has left [st1]. *)
Definition stored_set (k : GKeyFile) (st1 : Resolver) (group : string) : option NProplist :=
  match _parse_group_parent group with
  | Some p =>
      n_proplist_merge (n_proplist_copy (g_hash_table_lookup (sd_events st1) p))
                       (scan_entries k group false)
  | None => Some (scan_entries k group true)
  end.

(** The [profile:] payload [<key>@<profile>]. *)
Definition profile_payload (payload : string) : option (string * option string) :=
  match g_strsplit payload "@"%char 2 with
  | [] => None
  | key :: rest => Some (key, head rest)
  end.

(** One entry of a sound field, by the grammar table. *)
Definition sound_entry (w : World) (search_path : option string) (entry : string)
    : option SoundPath :=
  match _strip_prefix entry "profile:" with
  | Some payload =>
      match profile_payload payload with
      | Some (key, profile) => Some (mkSoundPath SOUND_PATH_TYPE_PROFILE None profile (Some key))
      | None => None
      end
  | None =>
      match _strip_prefix entry "filename:" with
      | Some path =>
          match _check_path w path search_path with
          | Some filename => Some (mkSoundPath SOUND_PATH_TYPE_FILENAME (Some filename) None None)
          | None => None
          end
      | None => None
      end
  end.

(** One entry of a vibration field, by the grammar table. *)
Definition pattern_entry (w : World) (search_path : option string) (entry : string)
    : option VibrationPattern :=
  match _strip_prefix entry "profile:" with
  | Some payload =>
      match profile_payload payload with
      | Some (key, profile) =>
          Some (mkVibrationPattern VIBRATION_PATTERN_TYPE_PROFILE None 0 profile (Some key))
      | None => None
      end
  | None =>
      match _strip_prefix entry "filename:" with
      | Some path =>
          match _check_path w path search_path with
          | Some filename =>
              Some (mkVibrationPattern VIBRATION_PATTERN_TYPE_FILENAME (Some filename) 0 None None)
          | None => None
          end
      | None =>
          match _strip_prefix entry "internal:" with
          | Some id => Some (mkVibrationPattern VIBRATION_PATTERN_TYPE_INTERNAL None (atoi id) None None)
          | None => None
          end
      end
  end.

(** One volume string, by the grammar table; the payload of [linear:] is
    the only place where [;] separates anything. *)
Definition volume_entry (entry : string) : option Volume :=
  match _strip_prefix entry "profile:" with
  | Some payload =>
      match profile_payload payload with
      | Some (key, profile) => Some (mkVolume VOLUME_TYPE_PROFILE 0 [0; 0; 0] profile (Some key))
      | None => None
      end
  | None =>
      match _strip_prefix entry "fixed:" with
      | Some level => Some (mkVolume VOLUME_TYPE_FIXED (atoi level) [0; 0; 0] None None)
      | None =>
          match _strip_prefix entry "linear:" with
          | Some ramp =>
              match g_strsplit ramp ";"%char (-1) with
              | a :: b :: c :: _ =>
                  Some (mkVolume VOLUME_TYPE_LINEAR 100 [atoi a; atoi b; atoi c] None None)
              | _ => None
              end
          | None => None
          end
      end
  end.

(** The volume field as the specification words it: the raw string is
    split on [;] into candidates, the candidates are tried in order and
    the first one that parses is the volume. *)
Fixpoint first_parsed (candidates : list string) : option Volume :=
  match candidates with
  | [] => None
  | candidate :: candidates' =>
      match volume_entry candidate with
      | Some v => Some v
      | None => first_parsed candidates'
      end
  end.

Definition spec_volume_of_field (raw : option string) : option Volume :=
  match raw with
  | None => None
  | Some raw => first_parsed (g_strsplit raw ";"%char (-1))
  end.

(** The text after an identifier's name: nothing, or [@] and the parent. *)
Definition parent_suffix (parent : option string) : string :=
  match parent with
  | None => EmptyString
  | Some p => String "@"%char p
  end.

(** The events table holds sets only for names that have a group. *)
Definition events_within (groups : gmap string string) (st : Resolver) : Prop :=
  forall n, is_Some (sd_events st !! n) -> is_Some (groups !! n).

(** ** Concrete configurations *)

Definition empty_context : Context :=
  mkContext [] None None 0 0 [0; 0; 0] ∅ ∅ [] [] [].

Definition initial_resolver : Resolver := mkResolver ∅ [].

(** A base event with one well-typed and one ill-typed field. *)
Definition base_conf : GKeyFile :=
  mkGKeyFile [ ("general", [("system_volume", "10;20;30")]);
               ("event base", [("audio_enabled", "true"); ("max_timeout", "abc")]);
               ("event left@base", [("audio_enabled", "false")]);
               ("event right@base", [("max_timeout", "7")]) ].


(** A source that loads but has no [system_volume] in its general group. *)
Definition no_volume_conf : GKeyFile :=
  mkGKeyFile [ ("general", [("plugins", "dummy")]) ].

Definition no_volume_world : World :=
  mkWorld [] [("/etc/ngf/ngf.ini", no_volume_conf)].

Definition base_world : World :=
  mkWorld [] [("./ngf.ini", base_conf)].

(** A resolved set that holds a volume string only. *)
Definition volume_only (raw : string) : option NProplist :=
  Some (n_proplist_set_string n_proplist_new "volume" (Some raw)).

Definition empty_world : World := mkWorld [] [].

(** ** Further reference functions *)

(** The tokens of a split put back together around the delimiter. *)
Fixpoint join (delim : ascii) (tokens : list string) : string :=
  match tokens with
  | [] => EmptyString
  | t :: rest =>
      match rest with
      | [] => t
      | _ => t +:+ String delim (join delim rest)
      end
  end.

Fixpoint count_char (c : ascii) (s : string) : nat :=
  match s with
  | EmptyString => O
  | String a r => if Ascii.eqb a c then S (count_char c r) else count_char c r
  end.

(** The chain of parents of [name] comes to an end within [n] calls: at a
    name already done, at a name without a group, or at a base event. *)
Inductive chain_ends (groups : gmap string string) (done_list : list string)
    : nat -> string -> Prop :=
| chain_ends_done n name :
    name ∈ done_list -> chain_ends groups done_list (S n) name
| chain_ends_no_group n name :
    groups !! name = None -> chain_ends groups done_list (S n) name
| chain_ends_base n name group :
    groups !! name = Some group -> _parse_group_parent group = None ->
    chain_ends groups done_list (S n) name
| chain_ends_step n name group p :
    name ∉ done_list ->
    groups !! name = Some group -> _parse_group_parent group = Some p ->
    chain_ends groups done_list n p ->
    chain_ends groups done_list (S n) name.

(** The set of an event as a function of the key file alone: the scan of
    its own group, laid over the set of its declared parent. The outer
    [None] means the bound on the length of the chain was reached; a name
    without a group has no set ([NULL]). *)
Fixpoint resolved_set (fuel : nat) (groups : gmap string string) (k : GKeyFile)
    (name : string) : option (option NProplist) :=
  match fuel with
  | O => None
  | S fuel' =>
      match groups !! name with
      | None => Some None
      | Some group =>
          match _parse_group_parent group with
          | None => Some (Some (scan_entries k group true))
          | Some p =>
              match resolved_set fuel' groups k p with
              | None => None
              | Some inherited =>
                  Some (n_proplist_merge (n_proplist_copy inherited)
                                         (scan_entries k group false))
              end
          end
      end
  end.

(** The state of a resolution pass hangs together: the names done are the
    names the table has a set for, they all have a group, and the set of
    each is the one [resolved_set] gives. *)
Definition resolver_inv (groups : gmap string string) (k : GKeyFile) (st : Resolver) : Prop :=
  (forall n, n ∈ events_done st <-> is_Some (sd_events st !! n)) /\
  (forall n, n ∈ events_done st -> is_Some (groups !! n)) /\
  (forall n v, sd_events st !! n = Some v ->
               exists fuel, resolved_set fuel groups k n = Some v).

(** A property set holds a value for every key of the schema. *)
Definition complete (proplist : NProplist) : Prop :=
  forall entry, entry ∈ event_entries -> is_Some (proplist !! ke_key entry).

(** A property set holds values for keys of the schema only. *)
Definition within_schema (proplist : NProplist) : Prop :=
  forall key, is_Some (proplist !! key) -> key ∈ map ke_key event_entries.

(** The event [finalize_event] builds, as a function of the property set
    and the two search paths. *)
Definition event_of_props (w : World) (sounds_dir patterns_dir : option string)
    (proplist : option NProplist) : Event :=
  mkEvent (n_proplist_get_bool proplist "audio_enabled")
          (n_proplist_get_bool proplist "vibration_enabled")
          (n_proplist_get_bool proplist "led_enabled")
          (n_proplist_get_bool proplist "backlight_enabled")
          (n_proplist_get_bool proplist "allow_custom")
          (n_proplist_get_int proplist "max_timeout")
          (n_proplist_get_bool proplist "lookup_pattern")
          (n_proplist_get_bool proplist "silent_enabled")
          (n_proplist_get_string proplist "event_id")
          (n_proplist_get_bool proplist "audio_tonegen_enabled")
          (n_proplist_get_int proplist "audio_tonegen_pattern")
          (n_proplist_get_bool proplist "audio_repeat")
          (n_proplist_get_int proplist "audio_max_repeats")
          (n_proplist_get_string proplist "led_pattern")
          (match n_proplist_get_string proplist "sound" with
           | None => []
           | Some raw => omap (sound_entry w sounds_dir) (g_strsplit raw ";"%char (-1))
           end)
          (match n_proplist_get_string proplist "volume" with
           | None => None
           | Some raw => volume_entry raw
           end)
          (match n_proplist_get_string proplist "vibration" with
           | None => []
           | Some raw => omap (pattern_entry w patterns_dir) (g_strsplit raw ";"%char (-1))
           end).

(** The fields of the context that only [_parse_general] and
    [_parse_definitions] write. *)
Definition same_settings (a b : Context) : Prop :=
  required_plugins a = required_plugins b /\
  patterns_path a = patterns_path b /\
  sound_path a = sound_path b /\
  audio_buffer_time a = audio_buffer_time b /\
  audio_latency_time a = audio_latency_time b /\
  system_volume a = system_volume b /\
  definitions a = definitions b.

(** Two events that name each other as parent. *)
Definition cyclic_conf : GKeyFile :=
  mkGKeyFile [ ("general", [("system_volume", "10;20;30")]);
               ("event a@b", [("audio_enabled", "true")]);
               ("event b@a", []) ].

Definition cyclic_world : World :=
  mkWorld [] [("/etc/ngf/ngf.ini", cyclic_conf)].

(** A three-level chain with sounds, and a definition. *)
Definition chain_conf : GKeyFile :=
  mkGKeyFile [ ("general", [("system_volume", "10;20"); ("plugins", "gst  vibrator");
                            ("sound_search_path", "/usr/share/sounds")]);
               ("definition ringtone", [("long", "call"); ("short", "beep")]);
               ("event root", [("audio_enabled", "true"); ("max_timeout", "abc");
                               ("sound", "filename:ring.wav;bad;profile:tone@general");
                               ("volume", "fixed:80")]);
               ("event call@root", [("max_timeout", "5000")]);
               ("event beep@call", [("audio_enabled", "false")]) ].

Definition chain_world : World :=
  mkWorld ["/usr/share/sounds/ring.wav"] [("./ngf.ini", chain_conf)].

(** Two contexts that differ in their pools of interned references at
    most. *)
Definition pools_only (a b : Context) : Prop :=
  same_settings a b /\ ctx_events a = ctx_events b.

(** What the parser guarantees of a sound path it returns. *)
Definition sound_path_well_formed (w : World) (sp : SoundPath) : Prop :=
  match sp_type sp with
  | SOUND_PATH_TYPE_PROFILE => sp_filename sp = None /\ is_Some (sp_key sp)
  | SOUND_PATH_TYPE_FILENAME =>
      (exists f, sp_filename sp = Some f /\ g_file_test_exists w f = true) /\
      sp_profile sp = None /\ sp_key sp = None
  end.

(** What the parser guarantees of a vibration pattern it returns. *)
Definition pattern_well_formed (w : World) (vp : VibrationPattern) : Prop :=
  match vp_type vp with
  | VIBRATION_PATTERN_TYPE_PROFILE => vp_filename vp = None /\ is_Some (vp_key vp)
  | VIBRATION_PATTERN_TYPE_FILENAME =>
      (exists f, vp_filename vp = Some f /\ g_file_test_exists w f = true) /\
      vp_profile vp = None /\ vp_key vp = None
  | VIBRATION_PATTERN_TYPE_INTERNAL =>
      vp_filename vp = None /\ vp_profile vp = None /\ vp_key vp = None
  end.

(** An integer as the grammar table means it: an optional sign followed
    by decimal digits, and nothing else. *)
Definition is_integer_literal (s : string) : bool :=
  let body := match s with
              | String "-"%char r => r
              | String "+"%char r => r
              | _ => s
              end in
  match body with
  | EmptyString => false
  | _ => all_digits body
  end.

(** One entry of a sound field as the specification's table words it:
    [profile:<key>@<profile>] needs its key (a missing key fails the
    entry), [filename:<path>] needs a path that resolves. *)
Definition spec_sound_entry (w : World) (search_path : option string) (entry : string)
    : option SoundPath :=
  match _strip_prefix entry "profile:" with
  | Some payload =>
      match profile_payload payload with
      | Some (key, profile) =>
          if String.eqb key EmptyString then None
          else Some (mkSoundPath SOUND_PATH_TYPE_PROFILE None profile (Some key))
      | None => None
      end
  | None =>
      match _strip_prefix entry "filename:" with
      | Some path =>
          match _check_path w path search_path with
          | Some filename => Some (mkSoundPath SOUND_PATH_TYPE_FILENAME (Some filename) None None)
          | None => None
          end
      | None => None
      end
  end.

(** One entry of a vibration field as the specification's table words it;
    [internal:<integer>] needs an integer. *)
Definition spec_pattern_entry (w : World) (search_path : option string) (entry : string)
    : option VibrationPattern :=
  match _strip_prefix entry "profile:" with
  | Some payload =>
      match profile_payload payload with
      | Some (key, profile) =>
          if String.eqb key EmptyString then None
          else Some (mkVibrationPattern VIBRATION_PATTERN_TYPE_PROFILE None 0 profile (Some key))
      | None => None
      end
  | None =>
      match _strip_prefix entry "filename:" with
      | Some path =>
          match _check_path w path search_path with
          | Some filename =>
              Some (mkVibrationPattern VIBRATION_PATTERN_TYPE_FILENAME (Some filename) 0 None None)
          | None => None
          end
      | None =>
          match _strip_prefix entry "internal:" with
          | Some id =>
              if is_integer_literal id
              then Some (mkVibrationPattern VIBRATION_PATTERN_TYPE_INTERNAL None (atoi id) None None)
              else None
          | None => None
          end
      end
  end.

(** ** Facts about the string primitives *)

Lemma split_loop_no_cut delim s : split_loop delim 0 s = [s].
Proof. destruct s; reflexivity. Qed.

Lemma split_loop_nonempty delim cuts s : split_loop delim cuts s <> [].
Proof.
  revert cuts. induction s as [|c r IH]; intros cuts; simpl; [discriminate|].
  destruct (cuts <=? 0); [discriminate|].
  destruct (Ascii.eqb c delim); [discriminate|].
  destruct (split_loop delim cuts r); discriminate.
Qed.

(** Splitting once: either the delimiter does not occur and the string is
    the only token, or the string is cut at its first occurrence. *)
Lemma split_loop_once delim s :
  (split_loop delim 1 s = [s] /\ has_char delim s = false) \/
  (exists a b, split_loop delim 1 s = [a; b] /\
               s = a +:+ String delim b /\ has_char delim a = false).
Proof.
  induction s as [|c r IH]; simpl.
  - left. split; reflexivity.
  - destruct (Ascii.eqb_spec c delim) as [->|Hne].
    + right. exists EmptyString, r. rewrite split_loop_no_cut. auto.
    + destruct IH as [[-> Hno]|(a & b & -> & -> & Hno)].
      * left. auto.
      * right. exists (String c a), b. simpl.
        rewrite (proj2 (Ascii.eqb_neq c delim) Hne). auto.
Qed.

Lemma skip_type_tag_no_space s :
  has_char " "%char s = false -> skip_type_tag s = EmptyString.
Proof.
  induction s as [|c r IH]; simpl; [reflexivity|].
  destruct (Ascii.eqb c " "%char); simpl; [discriminate|exact IH].
Qed.

Lemma _strip_group_type_nonempty group rest :
  _strip_group_type group = Some rest -> rest <> EmptyString.
Proof.
  unfold _strip_group_type.
  destruct (skip_type_tag group) as [|c r]; [discriminate|].
  destruct (Ascii.eqb c " "%char).
  - destruct r; [discriminate|]. intros [= <-]. discriminate.
  - intros [= <-]. discriminate.
Qed.

(** C6 (as amended): whenever the identifier parser returns an identifier,
    the text left after the type tag is not empty, it is the name followed
    by nothing or by [@] and the parent, and the name holds no [@]; the
    name itself is empty exactly when that text starts with [@] (and the
    parent may be empty). The parser returns nothing exactly when no text
    is left after the type tag. *)
Theorem parse_group_identifier_shape (raw : string) :
  match parse_group_identifier raw with
  | None => _strip_group_type raw = None
  | Some gi =>
      exists rest,
        _strip_group_type raw = Some rest /\
        rest <> EmptyString /\
        rest = gi_name gi +:+ parent_suffix (gi_parent gi) /\
        has_char "@"%char (gi_name gi) = false /\
        (gi_name gi = EmptyString -> exists p, gi_parent gi = Some p /\ rest = String "@"%char p)
  end.
Proof.
  unfold parse_group_identifier, _parse_group_name, _parse_group_parent.
  destruct (_strip_group_type raw) as [rest|] eqn:Hstrip; [|reflexivity].
  pose proof (_strip_group_type_nonempty _ _ Hstrip) as Hne.
  unfold g_strsplit. destruct rest as [|c r] eqn:Hrest; [congruence|].
  rewrite <- Hrest in *. change (2 <? 1) with false. cbv iota. change (2 - 1) with 1.
  destruct (split_loop_once "@"%char rest) as [[-> Hno]|(a & b & -> & Heq & Hno)].
  - exists rest. simpl. repeat split; auto.
    + clear. induction rest as [|a rest IH]; [reflexivity|].
      change (String a rest = String a (rest +:+ EmptyString)). congruence.
    + intros ->. congruence.
  - exists rest. simpl. repeat split; auto.
    intros ->. exists b. auto.
Qed.

Lemma parse_group_identifier_shape_witness :
  exists rest,
    _strip_group_type "event @bar" = Some rest /\
    rest <> EmptyString /\
    rest = "" +:+ parent_suffix (Some "bar") /\
    has_char "@"%char "" = false /\
    ("" = EmptyString -> exists p, Some "bar" = Some p /\ rest = String "@"%char p).
Proof. exact (parse_group_identifier_shape "event @bar"). Defined.

(** C7: ["event foo@bar"] gives name [foo] and parent [bar],
    ["event foo"] gives name [foo] and no parent, ["event "] gives
    nothing, and so does every string without a space. *)
Theorem identifier_examples :
  parse_group_identifier "event foo@bar" = Some (mkGroupIdentifier "foo" (Some "bar")) /\
  parse_group_identifier "event foo" = Some (mkGroupIdentifier "foo" None) /\
  parse_group_identifier "event " = None /\
  (forall raw, has_char " "%char raw = false -> parse_group_identifier raw = None).
Proof.
  repeat split; try reflexivity.
  intros raw Hno. unfold parse_group_identifier, _parse_group_name, _strip_group_type.
  rewrite (skip_type_tag_no_space _ Hno). reflexivity.
Qed.

Lemma identifier_examples_witness :
  has_char " "%char "event" = false /\ parse_group_identifier "event" = None.
Proof.
  split; [reflexivity|].
  apply (proj2 (proj2 (proj2 identifier_examples))). reflexivity.
Defined.

(** C6 fails as stated: an identifier is returned with an empty name for
    ["event @bar"] and with an empty parent for ["event foo@"]. *)
Lemma identifier_empty_components :
  parse_group_identifier "event @bar" = Some (mkGroupIdentifier "" (Some "bar")) /\
  parse_group_identifier "event foo@" = Some (mkGroupIdentifier "foo" (Some "")).
Proof. split; reflexivity. Qed.

(** ** The scan of the schema *)

Lemma event_entries_keys_NoDup : NoDup (map ke_key event_entries).
Proof. apply (bool_decide_unpack _). vm_compute. reflexivity. Qed.

Section Scan.
Variable k : GKeyFile.
Variable group : string.
Variable is_base : bool.

Local Abbreviation contribution := (contribution k group is_base).

Lemma add_entry_lookup_eq proplist entry :
  add_entry k group is_base proplist entry !! ke_key entry
  = contribution entry (proplist !! ke_key entry).
Proof.
  unfold add_entry, contribution, read_entry, entry_default.
  unfold _add_property_string, _add_property_int, _add_property_bool.
  unfold n_proplist_set_string, n_proplist_set_int, n_proplist_set_bool.
  destruct (ke_type entry).
  - destruct (g_key_file_get_string k group (ke_key entry));
      [|destruct is_base]; rewrite ?lookup_insert_eq; reflexivity.
  - destruct (g_key_file_get_integer k group (ke_key entry));
      [|destruct is_base]; rewrite ?lookup_insert_eq; reflexivity.
  - destruct (g_key_file_get_boolean k group (ke_key entry));
      [|destruct is_base]; rewrite ?lookup_insert_eq; reflexivity.
Qed.

Lemma add_entry_lookup_ne proplist entry key :
  key <> ke_key entry ->
  add_entry k group is_base proplist entry !! key = proplist !! key.
Proof.
  intros Hne. unfold add_entry.
  unfold _add_property_string, _add_property_int, _add_property_bool.
  unfold n_proplist_set_string, n_proplist_set_int, n_proplist_set_bool.
  destruct (ke_type entry).
  - destruct (g_key_file_get_string k group (ke_key entry));
      [|destruct is_base]; rewrite ?lookup_insert_ne; auto.
  - destruct (g_key_file_get_integer k group (ke_key entry));
      [|destruct is_base]; rewrite ?lookup_insert_ne; auto.
  - destruct (g_key_file_get_boolean k group (ke_key entry));
      [|destruct is_base]; rewrite ?lookup_insert_ne; auto.
Qed.

Lemma scan_lookup_other entries proplist key :
  key ∉ map ke_key entries ->
  foldl (add_entry k group is_base) proplist entries !! key = proplist !! key.
Proof.
  revert proplist. induction entries as [|a l IH]; intros proplist Hnotin; [reflexivity|].
  simpl in *. rewrite not_elem_of_cons in Hnotin. destruct Hnotin as [Hne Hnotin].
  rewrite IH by assumption. apply add_entry_lookup_ne; assumption.
Qed.

Lemma scan_lookup entries proplist entry :
  NoDup (map ke_key entries) -> entry ∈ entries ->
  foldl (add_entry k group is_base) proplist entries !! ke_key entry
  = contribution entry (proplist !! ke_key entry).
Proof.
  revert proplist. induction entries as [|a l IH]; intros proplist Hnd Hin.
  - inversion Hin.
  - simpl in *. apply NoDup_cons in Hnd as [Hfresh Hnd].
    apply elem_of_cons in Hin as [->|Hin].
    + rewrite scan_lookup_other by assumption. apply add_entry_lookup_eq.
    + rewrite IH by assumption.
      assert (ke_key entry <> ke_key a) as Hne.
      { intros Heq. apply Hfresh. rewrite <- Heq. apply list_elem_of_fmap_2; assumption. }
      unfold contribution. rewrite add_entry_lookup_ne by assumption. reflexivity.
Qed.

Lemma scan_entries_lookup entry :
  entry ∈ event_entries ->
  scan_entries k group is_base !! ke_key entry = contribution entry None.
Proof.
  intros Hin. unfold scan_entries.
  rewrite (scan_lookup _ _ _ event_entries_keys_NoDup Hin).
  unfold n_proplist_new. rewrite lookup_empty. reflexivity.
Qed.
End Scan.

(** ** The resolver *)

Lemma _event_is_done_spec done_list name :
  _event_is_done done_list name = true <-> name ∈ done_list.
Proof.
  induction done_list as [|d l IH]; simpl.
  - split; [discriminate|]. intros H. inversion H.
  - rewrite elem_of_cons. destruct (String.eqb_spec d name) as [->|Hne].
    + tauto.
    + rewrite IH. split; [tauto|]. intros [->|H]; [congruence|assumption].
Qed.

Lemma _event_is_done_false done_list name :
  _event_is_done done_list name = false <-> name ∉ done_list.
Proof.
  rewrite <- _event_is_done_spec. destruct (_event_is_done done_list name); split; congruence.
Qed.

Section Resolution.
Variable groups : gmap string string.
Variable k : GKeyFile.

Local Abbreviation resolve fuel st name := (_parse_single_event fuel groups k st name).

Local Abbreviation stored_set := (stored_set k).

Lemma resolve_done fuel st name :
  name ∈ events_done st -> resolve (S fuel) st name = Some st.
Proof.
  intros Hin. apply _event_is_done_spec in Hin. simpl. rewrite Hin. reflexivity.
Qed.

Lemma resolve_no_group fuel st name :
  groups !! name = None -> resolve (S fuel) st name = Some st.
Proof. intros Hg. simpl. rewrite Hg. destruct (_event_is_done _ _); reflexivity. Qed.

Lemma resolve_base fuel st name group :
  name ∉ events_done st -> groups !! name = Some group ->
  _parse_group_parent group = None ->
  resolve (S fuel) st name
  = Some (mkResolver (<[name := stored_set st group]> (sd_events st))
                     (events_done st ++ [name])).
Proof.
  intros Hnd Hg Hp. apply _event_is_done_false in Hnd.
  unfold stored_set. simpl. rewrite Hnd, Hg, Hp. reflexivity.
Qed.

Lemma resolve_derived fuel st name group p :
  name ∉ events_done st -> groups !! name = Some group ->
  _parse_group_parent group = Some p ->
  resolve (S fuel) st name
  = match resolve fuel st p with
    | None => None
    | Some st1 =>
        Some (mkResolver (<[name := stored_set st1 group]> (sd_events st1))
                         (events_done st1 ++ [name]))
    end.
Proof.
  intros Hnd Hg Hp. apply _event_is_done_false in Hnd.
  unfold stored_set. simpl. rewrite Hnd, Hg, Hp. reflexivity.
Qed.

(** The four ways a call can go. *)
Lemma resolve_cases fuel st name st' :
  resolve (S fuel) st name = Some st' ->
  (st' = st /\ ((name ∈ events_done st) \/ groups !! name = None)) \/
  (exists group,
      (name ∉ events_done st) /\ groups !! name = Some group /\
      _parse_group_parent group = None /\
      st' = mkResolver (<[name := stored_set st group]> (sd_events st))
                       (events_done st ++ [name])) \/
  (exists group p st1,
      (name ∉ events_done st) /\ groups !! name = Some group /\
      _parse_group_parent group = Some p /\
      resolve fuel st p = Some st1 /\
      st' = mkResolver (<[name := stored_set st1 group]> (sd_events st1))
                       (events_done st1 ++ [name])).
Proof.
  intros H.
  destruct (_event_is_done (events_done st) name) eqn:Hd.
  - apply _event_is_done_spec in Hd. rewrite resolve_done in H by assumption.
    left. split; [congruence|auto].
  - apply _event_is_done_false in Hd.
    destruct (groups !! name) as [group|] eqn:Hg.
    + destruct (_parse_group_parent group) as [p|] eqn:Hp.
      * rewrite (resolve_derived _ _ _ _ _ Hd Hg Hp) in H.
        destruct (resolve fuel st p) as [st1|] eqn:Hr; [|discriminate].
        right. right. exists group, p, st1. repeat split; auto. congruence.
      * rewrite (resolve_base _ _ _ _ Hd Hg Hp) in H.
        right. left. exists group. repeat split; auto. congruence.
    + rewrite resolve_no_group in H by assumption. left. split; [congruence|auto].
Qed.

(** More fuel does not change a result. *)
Lemma resolve_fuel_mono fuel st name st' :
  resolve fuel st name = Some st' -> resolve (S fuel) st name = Some st'.
Proof.
  revert st name st'. induction fuel as [|fuel IH]; intros st name st' H; [discriminate|].
  apply resolve_cases in H as [[-> [Hd|Hg]]|[(group & Hd & Hg & Hp & ->)|(group & p & st1 & Hd & Hg & Hp & Hr & ->)]].
  - apply resolve_done; assumption.
  - apply resolve_no_group; assumption.
  - apply resolve_base; assumption.
  - rewrite (resolve_derived _ _ _ _ _ Hd Hg Hp). rewrite (IH _ _ _ Hr). reflexivity.
Qed.

(** A name that becomes done during a call could have been resolved
    by a call of its own with the same bound. *)
Lemma resolve_newly_done fuel st p st1 y :
  resolve fuel st p = Some st1 -> y ∉ events_done st -> y ∈ events_done st1 ->
  exists sty, resolve fuel st y = Some sty.
Proof.
  revert st p st1. induction fuel as [|fuel IH]; intros st p st1 H Hy Hy1; [discriminate|].
  pose proof H as H0.
  apply resolve_cases in H as [[-> _]|[(group & Hd & Hg & Hp & ->)|(group & q & st2 & Hd & Hg & Hp & Hr & ->)]].
  - contradiction.
  - simpl in Hy1. apply elem_of_app in Hy1 as [Hy1|Hy1]; [contradiction|].
    apply list_elem_of_singleton in Hy1 as ->. eauto.
  - simpl in Hy1. apply elem_of_app in Hy1 as [Hy1|Hy1].
    + destruct (IH _ _ _ Hr Hy Hy1) as [sty Hsty].
      exists sty. apply resolve_fuel_mono; assumption.
    + apply list_elem_of_singleton in Hy1 as ->. eauto.
Qed.

(** Resolving the parent never marks the child done: if it did, the
    chain of parents would come back to the child and never end. *)
Lemma resolve_parent_leaves_child fuel st name group p st1 :
  name ∉ events_done st -> groups !! name = Some group ->
  _parse_group_parent group = Some p ->
  resolve fuel st p = Some st1 -> name ∉ events_done st1.
Proof.
  intros Hd Hg Hp. revert st1.
  induction fuel as [|fuel IH]; intros st1 Hr Hin; [discriminate|].
  destruct (resolve_newly_done _ _ _ _ _ Hr Hd Hin) as [stn Hn].
  rewrite (resolve_derived _ _ _ _ _ Hd Hg Hp) in Hn.
  destruct (resolve fuel st p) as [st1'|] eqn:Hr'; [|discriminate].
  pose proof (resolve_fuel_mono _ _ _ _ Hr') as Hm.
  rewrite Hr in Hm. injection Hm as <-.
  exact (IH _ eq_refl Hin).
Qed.

(** What a call adds: the done list grows by fresh, distinct names that
    all have a group, and the events table changes at those names only. *)
Lemma resolve_growth fuel st name st' :
  resolve fuel st name = Some st' ->
  exists new,
    events_done st' = events_done st ++ new /\
    NoDup new /\
    (forall y, y ∈ new -> (y ∉ events_done st) /\ is_Some (groups !! y)) /\
    (forall y, y ∉ new -> sd_events st' !! y = sd_events st !! y) /\
    (is_Some (groups !! name) -> name ∈ events_done st').
Proof.
  revert st name st'. induction fuel as [|fuel IH]; intros st name st' H; [discriminate|].
  apply resolve_cases in H as [[-> Hwhy]|[(group & Hd & Hg & Hp & ->)|(group & p & st1 & Hd & Hg & Hp & Hr & ->)]].
  - exists []. rewrite app_nil_r. repeat split; auto using NoDup_nil_2.
    + inversion H.
    + inversion H.
    + intros [g Hg]. destruct Hwhy as [?|?]; [assumption|congruence].
  - exists [name]. simpl. repeat split.
    + apply NoDup_singleton.
    + apply list_elem_of_singleton in H as ->. assumption.
    + apply list_elem_of_singleton in H as ->. eauto.
    + intros y Hy. apply lookup_insert_ne. intros ->. apply Hy. apply list_elem_of_singleton. reflexivity.
    + intros _. apply elem_of_app. right. apply list_elem_of_singleton. reflexivity.
  - destruct (IH _ _ _ Hr) as (new & Hdone & Hnd & Hfresh & Hsame & _).
    pose proof (resolve_parent_leaves_child _ _ _ _ _ _ Hd Hg Hp Hr) as Hleft.
    exists (new ++ [name]). simpl. rewrite Hdone, <- app_assoc. repeat split.
    + apply NoDup_app. repeat split; [assumption| |apply NoDup_singleton].
      intros x Hx Hx'. apply list_elem_of_singleton in Hx' as ->.
      apply Hleft. rewrite Hdone. apply elem_of_app. auto.
    + apply elem_of_app in H as [H|H]; [apply Hfresh; assumption|].
      apply list_elem_of_singleton in H as ->. assumption.
    + apply elem_of_app in H as [H|H]; [apply Hfresh; assumption|].
      apply list_elem_of_singleton in H as ->. eauto.
    + intros y Hy. rewrite not_elem_of_app in Hy. destruct Hy as [Hy1 Hy2].
      rewrite lookup_insert_ne.
      * apply Hsame; assumption.
      * intros ->. apply Hy2. apply list_elem_of_singleton. reflexivity.
    + intros _. rewrite !elem_of_app. right. right. apply list_elem_of_singleton. reflexivity.
Qed.

Lemma resolve_twice fuel st name st' :
  resolve fuel st name = Some st' ->
  forall fuel', resolve (S fuel') st' name = Some st'.
Proof.
  intros H fuel'.
  destruct (groups !! name) as [g|] eqn:Hg.
  - apply resolve_done. destruct (resolve_growth _ _ _ _ H) as (new & _ & _ & _ & _ & Hin).
    apply Hin. eauto.
  - apply resolve_no_group; assumption.
Qed.

Lemma resolve_events_within fuel st name st' :
  resolve fuel st name = Some st' ->
  events_within groups st -> events_within groups st'.
Proof.
  intros H Hin n Hn.
  destruct (resolve_growth _ _ _ _ H) as (new & _ & _ & Hfresh & Hsame & _).
  destruct (decide (n ∈ new)) as [Hnew|Hold].
  - apply Hfresh; assumption.
  - apply Hin. rewrite <- Hsame; assumption.
Qed.
End Resolution.

(** Every state the driver's loop goes through keeps sets only for names
    that have a group. *)
Lemma resolve_all_events_within groups k fuel keys : forall st st',
  resolve_all fuel groups k st keys = Some st' ->
  events_within groups st -> events_within groups st'.
Proof.
  induction keys as [|key keys IH]; intros st st' H Hin; simpl in H.
  - injection H as <-. exact Hin.
  - destruct (_parse_single_event fuel groups k st key) as [st1|] eqn:H1; [|discriminate].
    exact (IH _ _ H (resolve_events_within _ _ _ _ _ _ H1 Hin)).
Qed.

(** C1: the schema has 18 entries; the set resolved for a base event
    holds every one of them, with the value read from the event's group
    when the typed read succeeds and the schema default otherwise; for a
    derived event the set built from its own group holds exactly the
    entries whose typed read succeeds, and it is that set which is
    overlaid on the copy of the parent's. *)
Theorem defaults_base_and_derived (groups : gmap string string) (k : GKeyFile)
    (fuel : nat) (st : Resolver) (name group : string)
    (Hfresh : _event_is_done (events_done st) name = false)
    (Hgroup : groups !! name = Some group) :
  length event_entries = 18%nat /\
  match _parse_group_parent group with
  | None =>
      exists resolved,
        _parse_single_event (S fuel) groups k st name
        = Some (mkResolver (<[name := Some resolved]> (sd_events st))
                           (events_done st ++ [name])) /\
        forall entry, entry ∈ event_entries ->
          resolved !! ke_key entry
          = Some (match read_entry k group entry with
                  | KeyOk v => v
                  | KeyError _ => entry_default entry
                  end)
  | Some p =>
      forall st1, _parse_single_event fuel groups k st p = Some st1 ->
      exists own,
        _parse_single_event (S fuel) groups k st name
        = Some (mkResolver
                  (<[name := n_proplist_merge
                               (n_proplist_copy (g_hash_table_lookup (sd_events st1) p)) own]>
                     (sd_events st1))
                  (events_done st1 ++ [name])) /\
        forall entry, entry ∈ event_entries ->
          own !! ke_key entry
          = match read_entry k group entry with
            | KeyOk v => Some v
            | KeyError _ => None
            end
  end.
Proof.
  split; [reflexivity|].
  apply _event_is_done_false in Hfresh.
  destruct (_parse_group_parent group) as [p|] eqn:Hp.
  - intros st1 Hr. exists (scan_entries k group false). split.
    + rewrite (resolve_derived _ _ _ _ _ _ _ Hfresh Hgroup Hp), Hr.
      unfold stored_set. rewrite Hp. reflexivity.
    + intros entry Hin. rewrite scan_entries_lookup by assumption.
      unfold contribution. destruct (read_entry k group entry); reflexivity.
  - exists (scan_entries k group true). split.
    + rewrite (resolve_base _ _ _ _ _ _ Hfresh Hgroup Hp).
      unfold stored_set. rewrite Hp. reflexivity.
    + intros entry Hin. rewrite scan_entries_lookup by assumption.
      unfold contribution. destruct (read_entry k group entry); reflexivity.
Qed.

Lemma defaults_base_and_derived_witness :
  (exists resolved,
      _parse_single_event 1 (build_groups base_conf) base_conf initial_resolver "base"
      = Some (mkResolver (<[ "base" := Some resolved]> ∅) ([] ++ ["base"])) /\
      resolved !! "audio_enabled" = Some (NBool true) /\
      resolved !! "max_timeout" = Some (NInt 0) /\
      resolved !! "audio_tonegen_pattern" = Some (NInt (-1))) /\
  (exists st1 own,
      _parse_single_event 1 (build_groups base_conf) base_conf initial_resolver "base"
      = Some st1 /\
      _parse_single_event 2 (build_groups base_conf) base_conf initial_resolver "left"
      = Some (mkResolver
                (<[ "left" := n_proplist_merge
                                (n_proplist_copy (g_hash_table_lookup (sd_events st1) "base"))
                                own]> (sd_events st1))
                (events_done st1 ++ ["left"])) /\
      own !! "audio_enabled" = Some (NBool false) /\
      own !! "max_timeout" = None).
Proof.
  split.
  - destruct (defaults_base_and_derived (build_groups base_conf) base_conf 0 initial_resolver
                "base" "event base" eq_refl eq_refl) as [_ (resolved & Hrun & Hall)].
    exists resolved. split; [exact Hrun|]. repeat split.
    + apply (Hall (mkKeyEntry KEY_ENTRY_TYPE_BOOL "audio_enabled" 0 None)).
      repeat first [apply list_elem_of_here | apply list_elem_of_further].
    + apply (Hall (mkKeyEntry KEY_ENTRY_TYPE_INT "max_timeout" 0 None)).
      repeat first [apply list_elem_of_here | apply list_elem_of_further].
    + apply (Hall (mkKeyEntry KEY_ENTRY_TYPE_INT "audio_tonegen_pattern" (-1) None)).
      repeat first [apply list_elem_of_here | apply list_elem_of_further].
  - destruct (_parse_single_event 1 (build_groups base_conf) base_conf initial_resolver "base")
      as [st1|] eqn:H1; [|exfalso; vm_compute in H1; discriminate].
    destruct (proj2 (defaults_base_and_derived (build_groups base_conf) base_conf 1
                       initial_resolver "left" "event left@base" eq_refl eq_refl) st1 H1)
      as (own & Hrun & Hall).
    exists st1, own. split; [reflexivity|]. split; [exact Hrun|]. split.
    + apply (Hall (mkKeyEntry KEY_ENTRY_TYPE_BOOL "audio_enabled" 0 None)).
      repeat first [apply list_elem_of_here | apply list_elem_of_further].
    + apply (Hall (mkKeyEntry KEY_ENTRY_TYPE_INT "max_timeout" 0 None)).
      repeat first [apply list_elem_of_here | apply list_elem_of_further].
Defined.

Lemma NoDup_count_occ_once (l : list string) (x : string) :
  NoDup l -> x ∈ l -> count_occ string_dec l x = 1%nat.
Proof.
  intros Hnd Hin. apply NoDup_ListNoDup in Hnd. apply list_elem_of_In in Hin.
  exact (proj1 (List.NoDup_count_occ' string_dec l) Hnd x Hin).
Qed.

(** C2: once a name has been resolved, resolving it again leaves the
    events table and the done list as they are; and when two distinct
    events declare the same parent and are resolved one after the other,
    the names whose sets were computed are appended to the done list
    without repetition, the table changes at those names only, the
    parent is among them exactly once, the set stored for the parent by
    the first resolution is still its set after the second, and both
    children hold their own scan laid over that one set. *)
Theorem memoisation (groups : gmap string string) (k : GKeyFile)
    (fuel : nat) (st : Resolver) (name : string) (st1 : Resolver)
    (Hfirst : _parse_single_event fuel groups k st name = Some st1) :
  (forall fuel', _parse_single_event (S fuel') groups k st1 name = Some st1) /\
  (forall fuel2 other parent g1 g2 st2,
      name <> other ->
      _event_is_done (events_done st) name = false ->
      groups !! name = Some g1 -> _parse_group_parent g1 = Some parent ->
      groups !! other = Some g2 -> _parse_group_parent g2 = Some parent ->
      _parse_single_event fuel2 groups k st1 other = Some st2 ->
      exists new,
        events_done st2 = events_done st ++ new /\
        NoDup new /\
        (forall y, y ∉ new -> sd_events st2 !! y = sd_events st !! y) /\
        (_event_is_done (events_done st) parent = false ->
         forall gp, groups !! parent = Some gp ->
         count_occ string_dec new parent = 1%nat /\
         exists stp v,
           v = stored_set k stp gp /\
           sd_events st1 !! parent = Some v /\
           sd_events st2 !! parent = Some v /\
           sd_events st2 !! name
           = Some (n_proplist_merge (n_proplist_copy v) (scan_entries k g1 false)) /\
           (_event_is_done (events_done st1) other = false ->
            sd_events st2 !! other
            = Some (n_proplist_merge (n_proplist_copy v) (scan_entries k g2 false))))).
Proof.
  split; [exact (resolve_twice _ _ _ _ _ _ Hfirst)|].
  intros fuel2 other parent g1 g2 st2 Hne Hfresh Hg1 Hp1 Hg2 Hp2 Hsecond.
  apply _event_is_done_false in Hfresh.
  destruct (resolve_growth _ _ _ _ _ _ Hfirst) as (new1 & Hd1 & Hnd1 & Hf1 & Hs1 & _).
  destruct (resolve_growth _ _ _ _ _ _ Hsecond) as (new2 & Hd2 & Hnd2 & Hf2 & Hs2 & _).
  exists (new1 ++ new2).
  assert (NoDup (new1 ++ new2)) as Hnd.
  { apply NoDup_app. repeat split; try assumption.
    intros x Hx1 Hx2. apply (Hf2 x Hx2). rewrite Hd1. apply elem_of_app. auto. }
  split; [rewrite Hd2, Hd1, <- app_assoc; reflexivity|].
  split; [assumption|]. split.
  { intros y Hy. rewrite not_elem_of_app in Hy. destruct Hy as [Hy1 Hy2].
    rewrite Hs2, Hs1 by assumption. reflexivity. }
  intros Hpfresh gp Hgp. apply _event_is_done_false in Hpfresh.
  destruct fuel as [|fuel]; [discriminate|].
  rewrite (resolve_derived _ _ _ _ _ _ _ Hfresh Hg1 Hp1) in Hfirst.
  destruct (_parse_single_event fuel groups k st parent) as [stp|] eqn:Hrp; [|discriminate].
  injection Hfirst as <-. cbn [events_done sd_events] in *.
  pose proof (resolve_parent_leaves_child _ _ _ _ _ _ _ _ Hfresh Hg1 Hp1 Hrp) as Hleft.
  destruct (resolve_growth _ _ _ _ _ _ Hrp) as (newp & Hdp & _ & _ & _ & Hin).
  specialize (Hin (mk_is_Some _ _ Hgp)).
  assert (name <> parent) as Hnp by (intros ->; contradiction).
  assert (exists stpp, sd_events stp !! parent = Some (stored_set k stpp gp)) as [stpp Hv].
  { destruct fuel as [|fuel']; [discriminate|].
    apply resolve_cases in Hrp
      as [[-> [Hd|Hg]]|[(g & Hd & Hg & Hp & ->)|(g & p & s1 & Hd & Hg & Hp & Hr & ->)]].
    - contradiction.
    - congruence.
    - exists st. cbn [sd_events]. rewrite lookup_insert_eq. congruence.
    - exists s1. cbn [sd_events]. rewrite lookup_insert_eq. congruence. }
  assert (parent ∈ events_done stp ++ [name]) as Hin1 by (apply elem_of_app; auto).
  assert (parent ∉ new2) as Hp2n by (intros Hx; exact (proj1 (Hf2 _ Hx) Hin1)).
  assert (name ∉ new2) as Hn2n.
  { intros Hx. apply (proj1 (Hf2 _ Hx)). apply elem_of_app. right.
    apply list_elem_of_singleton. reflexivity. }
  split.
  { apply NoDup_count_occ_once; [assumption|]. apply elem_of_app. left.
    assert (parent ∈ events_done st ++ new1) as Hin' by (rewrite <- Hd1; assumption).
    apply elem_of_app in Hin' as [?|?]; [contradiction|assumption]. }
  exists stpp, (stored_set k stpp gp). split; [reflexivity|].
  assert (g_hash_table_lookup (sd_events stp) parent = stored_set k stpp gp) as Hlook.
  { unfold g_hash_table_lookup. rewrite Hv. reflexivity. }
  split; [rewrite lookup_insert_ne by assumption; exact Hv|].
  split; [rewrite (Hs2 _ Hp2n), lookup_insert_ne by assumption; exact Hv|].
  split.
  { rewrite (Hs2 _ Hn2n), lookup_insert_eq. unfold stored_set at 1.
    rewrite Hp1, Hlook. reflexivity. }
  intros Hofresh. apply _event_is_done_false in Hofresh.
  destruct fuel2 as [|fuel2]; [discriminate|].
  rewrite (resolve_derived groups k _
             (mkResolver (<[name := stored_set k stp g1]> (sd_events stp))
                         (events_done stp ++ [name]))
             other g2 parent Hofresh Hg2 Hp2) in Hsecond.
  destruct fuel2 as [|fuel2]; [discriminate|].
  rewrite (resolve_done groups k fuel2
             (mkResolver (<[name := stored_set k stp g1]> (sd_events stp))
                         (events_done stp ++ [name]))
             parent Hin1) in Hsecond.
  injection Hsecond as <-.
  cbn [sd_events]. rewrite lookup_insert_eq. unfold stored_set at 1. rewrite Hp2.
  unfold g_hash_table_lookup. cbn [sd_events].
  rewrite lookup_insert_ne by assumption. rewrite Hv. reflexivity.
Qed.

Lemma memoisation_witness :
  exists st1 st2 v new,
    _parse_single_event 2 (build_groups base_conf) base_conf initial_resolver "left" = Some st1 /\
    _parse_single_event 1 (build_groups base_conf) base_conf st1 "left" = Some st1 /\
    _parse_single_event 2 (build_groups base_conf) base_conf st1 "right" = Some st2 /\
    events_done st2 = [] ++ new /\
    count_occ string_dec new "base" = 1%nat /\
    sd_events st1 !! "base" = Some v /\
    sd_events st2 !! "base" = Some v /\
    sd_events st2 !! "left"
    = Some (n_proplist_merge (n_proplist_copy v)
                             (scan_entries base_conf "event left@base" false)) /\
    sd_events st2 !! "right"
    = Some (n_proplist_merge (n_proplist_copy v)
                             (scan_entries base_conf "event right@base" false)).
Proof.
  pose (stp := mkResolver (<[ "base" := Some (scan_entries base_conf "event base" true)]> ∅)
                          ["base"]).
  pose (st1 := mkResolver (<[ "left" := stored_set base_conf stp "event left@base"]>
                             (sd_events stp))
                          ["base"; "left"]).
  pose (st2 := mkResolver (<[ "right" := stored_set base_conf st1 "event right@base"]>
                             (sd_events st1))
                          ["base"; "left"; "right"]).
  assert (_parse_single_event 2 (build_groups base_conf) base_conf initial_resolver "left"
          = Some st1) as H1 by (vm_compute; reflexivity).
  assert (_parse_single_event 2 (build_groups base_conf) base_conf st1 "right"
          = Some st2) as H2 by (vm_compute; reflexivity).
  destruct (memoisation (build_groups base_conf) base_conf 2 initial_resolver "left" st1 H1)
    as [Hagain Hshared].
  destruct (Hshared 2%nat "right" "base" "event left@base" "event right@base" st2)
    as (new & Hd & _ & _ & Honce);
    [discriminate|reflexivity|reflexivity|reflexivity|reflexivity|reflexivity|exact H2|].
  destruct (Honce eq_refl "event base" eq_refl)
    as (Hcount & stp' & v & _ & Hv1 & Hv2 & Hleft & Hother).
  exists st1, st2, v, new.
  split; [exact H1|]. split; [apply Hagain|]. split; [exact H2|].
  split; [exact Hd|]. split; [exact Hcount|]. split; [exact Hv1|]. split; [exact Hv2|].
  split; [exact Hleft|]. exact (Hother eq_refl).
Defined.





(** ** Resource references *)

Lemma _parse_sound_path_entry w ctx str :
  snd (_parse_sound_path w ctx str) = sound_entry w (sound_path ctx) str /\
  sound_path (fst (_parse_sound_path w ctx str)) = sound_path ctx.
Proof.
  unfold _parse_sound_path, sound_entry, _strip_prefix, _parse_profile_key, profile_payload.
  destruct (g_str_has_prefix str "profile:").
  - destruct (g_strsplit _ _ _); simpl; auto.
  - destruct (g_str_has_prefix str "filename:"); [|auto].
    destruct (_check_path _ _ _); simpl; auto.
Qed.

Lemma sound_paths_loop_entries w entries : forall ctx result,
  snd (sound_paths_loop w ctx entries result)
  = result ++ omap (sound_entry w (sound_path ctx)) entries.
Proof.
  induction entries as [|s l IH]; intros ctx result; simpl.
  - rewrite app_nil_r. reflexivity.
  - destruct (_parse_sound_path_entry w ctx s) as [Hv Hp].
    destruct (_parse_sound_path w ctx s) as [ctx' [sp|]]; simpl in *;
      rewrite <- Hv, IH, Hp; [rewrite <- app_assoc|]; reflexivity.
Qed.

Lemma _parse_pattern_entry w ctx str :
  snd (_parse_pattern w ctx str) = pattern_entry w (patterns_path ctx) str /\
  patterns_path (fst (_parse_pattern w ctx str)) = patterns_path ctx.
Proof.
  unfold _parse_pattern, pattern_entry, _strip_prefix, _parse_profile_key, profile_payload.
  destruct (g_str_has_prefix str "profile:").
  - destruct (g_strsplit _ _ _); simpl; auto.
  - destruct (g_str_has_prefix str "filename:").
    + destruct (_check_path _ _ _); simpl; auto.
    + destruct (g_str_has_prefix str "internal:"); auto.
Qed.

Lemma patterns_loop_entries w entries : forall ctx result,
  snd (patterns_loop w ctx entries result)
  = result ++ omap (pattern_entry w (patterns_path ctx)) entries.
Proof.
  induction entries as [|s l IH]; intros ctx result; simpl.
  - rewrite app_nil_r. reflexivity.
  - destruct (_parse_pattern_entry w ctx s) as [Hv Hp].
    destruct (_parse_pattern w ctx s) as [ctx' [sp|]]; simpl in *;
      rewrite <- Hv, IH, Hp; [rewrite <- app_assoc|]; reflexivity.
Qed.

Lemma _create_volume_entry ctx str :
  snd (_create_volume ctx (Some str)) = volume_entry str.
Proof.
  unfold _create_volume, volume_entry, _strip_prefix, _parse_profile_key, profile_payload.
  destruct (g_str_has_prefix str "profile:").
  - destruct (g_strsplit _ _ _); reflexivity.
  - destruct (g_str_has_prefix str "fixed:"); [reflexivity|].
    destruct (g_str_has_prefix str "linear:"); [|reflexivity].
    destruct (g_strsplit _ _ _) as [|a [|b [|c l]]]; reflexivity.
Qed.

Lemma filename_prefix path :
  _strip_prefix ("filename:" +:+ path) "profile:" = None /\
  _strip_prefix ("filename:" +:+ path) "filename:" = Some path.
Proof. split; reflexivity. Qed.

(** C3 (as amended): ["linear:10;20;30"] gives a linear volume whose
    level is [100] and whose ramp is [[10; 20; 30]]. *)
Theorem linear_volume_example (ctx : Context) :
  snd (_create_volume ctx (Some "linear:10;20;30"))
  = Some (mkVolume VOLUME_TYPE_LINEAR 100 [10; 20; 30] None None).
Proof. reflexivity. Qed.

(** C3 fails as stated: the level of that volume is not [10]. *)
Lemma linear_volume_level_is_not_10 :
  exists v, snd (_create_volume empty_context (Some "linear:10;20;30")) = Some v /\
            vol_type v = VOLUME_TYPE_LINEAR /\ vol_linear v = [10; 20; 30] /\
            vol_level v <> 10.
Proof. eexists. repeat split. discriminate. Qed.

(** C5 (as amended): the volume of a materialised event is single-valued:
    the whole raw volume string is parsed as one entry of the volume
    grammar, without any split into candidates, so at most one volume
    results. *)
Theorem finalize_event_volume (w : World) (ctx : Context) (name : string)
    (proplist : option NProplist) :
  exists event,
    ctx_events (finalize_event w ctx name proplist) !! name = Some event /\
    volume event = match n_proplist_get_string proplist "volume" with
                   | None => None
                   | Some raw => volume_entry raw
                   end.
Proof.
  unfold finalize_event.
  destruct (_create_sound_paths w ctx _) as [ctx1 sounds].
  destruct (n_proplist_get_string proplist "volume") as [raw|] eqn:Hraw.
  - pose proof (_create_volume_entry ctx1 raw) as Hv.
    destruct (_create_volume ctx1 (Some raw)) as [ctx2 vol]. simpl in Hv. subst vol.
    destruct (_create_patterns w ctx2 _) as [ctx3 pats].
    eexists. split; [apply lookup_insert_eq|reflexivity].
  - simpl. destruct (_create_patterns w ctx1 _) as [ctx3 pats].
    eexists. split; [apply lookup_insert_eq|reflexivity].
Qed.

(** C5 fails as stated: for ["bogus;fixed:80"] the first candidate that
    parses is [fixed:80], yet the event gets no volume; for
    ["linear:10;20;30"] no candidate parses, yet the event gets a linear
    volume. *)
Lemma volume_field_is_not_split :
  spec_volume_of_field (n_proplist_get_string (volume_only "bogus;fixed:80") "volume")
    = Some (mkVolume VOLUME_TYPE_FIXED 80 [0; 0; 0] None None) /\
  volume <$> (ctx_events (finalize_event empty_world empty_context "ev"
                            (volume_only "bogus;fixed:80")) !! "ev")
    = Some None /\
  spec_volume_of_field (n_proplist_get_string (volume_only "linear:10;20;30") "volume")
    = None /\
  volume <$> (ctx_events (finalize_event empty_world empty_context "ev"
                            (volume_only "linear:10;20;30")) !! "ev")
    = Some (Some (mkVolume VOLUME_TYPE_LINEAR 100 [10; 20; 30] None None)).
Proof. repeat split; vm_compute; reflexivity. Qed.

(** ** The driver *)

Lemma _parse_general_outcome ctx k :
  match get_string_or_null k GROUP_GENERAL "system_volume" with
  | None => _parse_general ctx k = NullDereference
  | Some _ => exists ctx', _parse_general ctx k = Returns ctx'
  end.
Proof.
  unfold _parse_general.
  destruct (get_string_or_null k GROUP_GENERAL "system_volume"); simpl; eauto.
Qed.

Lemma _parse_events_no_fault fuel w ctx k : _parse_events fuel w ctx k <> NullDereference.
Proof. unfold _parse_events. destruct (resolve_all _ _ _ _ _); discriminate. Qed.

(** Once a source has loaded, holds a [system_volume] and the resolution of
    its events ends within the bound, [load_settings] returns success. *)
Lemma load_settings_returns_true fuel w ctx k value st :
  first_loadable w conf_files = Some k ->
  get_string_or_null k GROUP_GENERAL "system_volume" = Some value ->
  resolve_all fuel (build_groups k) k initial_resolver
              (map fst (map_to_list (build_groups k))) = Some st ->
  exists ctx', load_settings fuel w ctx = Returns (true, ctx').
Proof.
  intros Hload Hvol Hres. unfold load_settings. rewrite Hload.
  pose proof (_parse_general_outcome ctx k) as Hgen. rewrite Hvol in Hgen.
  destruct Hgen as [ctx1 ->]. simpl.
  unfold _parse_events. unfold initial_resolver in Hres. rewrite Hres. simpl. eauto.
Qed.

(** C10: [_parse_general] hands the [system_volume] string to
    [g_strsplit] and reads the first element of the result with no [NULL]
    test in between: it dereferences [NULL] exactly when the general
    group has no [system_volume], and returns when the key is there;
    [load_settings] dereferences [NULL] exactly when the source it loaded
    lacks that key. *)
Theorem system_volume_precondition :
  (forall ctx k,
      _parse_general ctx k = NullDereference <->
      get_string_or_null k GROUP_GENERAL "system_volume" = None) /\
  (forall ctx k value,
      get_string_or_null k GROUP_GENERAL "system_volume" = Some value ->
      exists ctx', _parse_general ctx k = Returns ctx') /\
  (forall fuel w ctx,
      load_settings fuel w ctx = NullDereference <->
      exists k, first_loadable w conf_files = Some k /\
                get_string_or_null k GROUP_GENERAL "system_volume" = None).
Proof.
  split; [|split].
  - intros ctx k. pose proof (_parse_general_outcome ctx k) as H.
    destruct (get_string_or_null k GROUP_GENERAL "system_volume").
    + destruct H as [ctx' ->]. split; discriminate.
    + tauto.
  - intros ctx k value Hv. pose proof (_parse_general_outcome ctx k) as H.
    rewrite Hv in H. exact H.
  - intros fuel w ctx. unfold load_settings.
    destruct (first_loadable w conf_files) as [k|].
    + pose proof (_parse_general_outcome ctx k) as H.
      destruct (get_string_or_null k GROUP_GENERAL "system_volume") as [v|] eqn:Hv.
      * destruct H as [ctx' ->]. simpl. split.
        -- intros Hbad. exfalso.
           pose proof (_parse_events_no_fault fuel w (_parse_definitions ctx' k) k) as Hno.
           destruct (_parse_events fuel w (_parse_definitions ctx' k) k); simpl in Hbad;
             congruence.
        -- intros (k' & [= <-] & Hnone). congruence.
      * rewrite H. simpl. split; [eauto|reflexivity].
    + split; [discriminate|]. intros (k' & Hk & _). discriminate.
Qed.

Lemma system_volume_precondition_witness :
  get_string_or_null base_conf GROUP_GENERAL "system_volume" = Some "10;20;30" /\
  exists ctx', _parse_general empty_context base_conf = Returns ctx'.
Proof.
  split; [reflexivity|].
  apply (proj1 (proj2 system_volume_precondition) empty_context base_conf "10;20;30").
  reflexivity.
Defined.

(** C9, at the failing input: [load_settings] returns failure exactly
    when no candidate file loads, but for a source that loads and whose
    general group has no [system_volume] it does not return success: it
    dereferences [NULL]. *)
Theorem load_settings_without_system_volume :
  (forall fuel w ctx ctx',
      load_settings fuel w ctx = Returns (false, ctx') <->
      first_loadable w conf_files = None /\ ctx' = ctx) /\
  first_loadable no_volume_world conf_files = Some no_volume_conf /\
  (forall fuel, load_settings fuel no_volume_world empty_context = NullDereference).
Proof.
  split; [|split; [reflexivity|intros fuel; reflexivity]].
  intros fuel w ctx ctx'. unfold load_settings.
  destruct (first_loadable w conf_files) as [k|].
  - split; [|intros [? _]; discriminate].
    destruct (_parse_general ctx k) as [ctx1| |]; simpl; try discriminate.
    destruct (_parse_events fuel w (_parse_definitions ctx1 k) k); simpl; discriminate.
  - split; [intros [= <-]; auto|intros [_ ->]; reflexivity].
Qed.

(** ** The numbers [atoi] gives *)

Lemma atoi_range s : -2147483648 <= atoi s <= 2147483647.
Proof.
  unfold atoi, to_gint.
  pose proof (Z.mod_pos_bound (strtol s + 2147483648) 4294967296 ltac:(lia)). lia.
Qed.

Lemma atoi_in_range s :
  -2147483648 <= decimal_prefix s <= 2147483647 -> atoi s = decimal_prefix s.
Proof.
  intros H. unfold atoi, to_gint, strtol, LONG_MAX, LONG_MIN.
  rewrite Z.min_r, Z.max_r by lia.
  rewrite Z.mod_small by lia. lia.
Qed.

Lemma atoi_examples :
  atoi "80" = 80 /\ atoi " -7;" = -7 /\ atoi "abc" = 0 /\
  atoi "2147483648" = -2147483648 /\ atoi "4294967296" = 0 /\
  atoi "99999999999999999999" = -1.
Proof. repeat split; vm_compute; reflexivity. Qed.

(** ** More on the string primitives *)

Lemma append_cons c a b : String c a +:+ b = String c (a +:+ b).
Proof. reflexivity. Qed.

Lemma g_str_has_prefix_append prefix rest : g_str_has_prefix (prefix +:+ rest) prefix = true.
Proof.
  induction prefix as [|c p IH]; [reflexivity|].
  rewrite append_cons. simpl. rewrite Ascii.eqb_refl. exact IH.
Qed.

Lemma advance_append prefix rest : advance (String.length prefix) (prefix +:+ rest) = rest.
Proof. induction prefix as [|c p IH]; [reflexivity|]. rewrite append_cons. exact IH. Qed.

Lemma g_str_has_prefix_split str prefix :
  g_str_has_prefix str prefix = true ->
  str = prefix +:+ advance (String.length prefix) str.
Proof.
  revert str. induction prefix as [|c p IH]; intros str H; [reflexivity|].
  destruct str as [|a s]; [discriminate|]. simpl in H.
  destruct (Ascii.eqb_spec a c) as [->|]; [|discriminate].
  rewrite append_cons. simpl. f_equal. exact (IH _ H).
Qed.

(** [_strip_prefix] gives [rest] exactly for the strings that are the
    prefix followed by [rest]. *)
Theorem _strip_prefix_round_trip (str prefix rest : string) :
  _strip_prefix str prefix = Some rest <-> str = prefix +:+ rest.
Proof.
  unfold _strip_prefix. split.
  - destruct (g_str_has_prefix str prefix) eqn:H; [|discriminate].
    intros [= <-]. exact (g_str_has_prefix_split _ _ H).
  - intros ->. rewrite g_str_has_prefix_append, advance_append. reflexivity.
Qed.

Lemma split_loop_join delim s : forall cuts, join delim (split_loop delim cuts s) = s.
Proof.
  induction s as [|c r IH]; intros cuts; [reflexivity|]. simpl.
  destruct (cuts <=? 0); [reflexivity|].
  destruct (Ascii.eqb_spec c delim) as [->|Hne].
  - specialize (IH (cuts - 1)). simpl.
    pose proof (split_loop_nonempty delim (cuts - 1) r) as Hne.
    destruct (split_loop delim (cuts - 1) r) as [|t l]; [congruence|].
    rewrite IH. reflexivity.
  - specialize (IH cuts).
    pose proof (split_loop_nonempty delim cuts r) as Hn.
    destruct (split_loop delim cuts r) as [|t l]; [congruence|].
    simpl in *. destruct l; [congruence|].
    rewrite append_cons. congruence.
Qed.

Lemma count_char_le_length c s : (count_char c s <= String.length s)%nat.
Proof. induction s as [|a r IH]; simpl; [lia|]. destruct (Ascii.eqb a c); lia. Qed.

Lemma split_loop_all delim s : forall cuts,
  Z.of_nat (count_char delim s) <= cuts ->
  length (split_loop delim cuts s) = S (count_char delim s) /\
  Forall (fun t => has_char delim t = false) (split_loop delim cuts s).
Proof.
  induction s as [|c r IH]; intros cuts Hc; simpl in *.
  - split; [reflexivity|]. repeat constructor.
  - destruct (Ascii.eqb_spec c delim) as [->|Hne].
    + destruct (cuts <=? 0) eqn:Hz; [lia|].
      destruct (IH (cuts - 1)) as [Hl Hf]; [lia|].
      simpl. split; [congruence|]. constructor; [reflexivity|assumption].
    + destruct (cuts <=? 0) eqn:Hz.
      * assert (count_char delim r = O) as H0 by lia.
        destruct (IH 0) as [Hl Hf]; [lia|].
        rewrite split_loop_no_cut in Hl, Hf. rewrite H0. split; [reflexivity|].
        constructor; [|constructor]. simpl.
        rewrite (proj2 (Ascii.eqb_neq c delim) Hne). simpl.
        inversion Hf; assumption.
      * destruct (IH cuts Hc) as [Hl Hf].
        destruct (split_loop delim cuts r) as [|t l]; [discriminate|].
        simpl in *. split; [assumption|].
        inversion Hf; subst. constructor; [|assumption]. simpl.
        rewrite (proj2 (Ascii.eqb_neq c delim) Hne). assumption.
Qed.

Lemma g_strsplit_join delim s max_tokens : join delim (g_strsplit s delim max_tokens) = s.
Proof. destruct s; [reflexivity|]. apply split_loop_join. Qed.

Lemma g_strsplit_all delim s :
  s <> EmptyString -> Z.of_nat (String.length s) < G_MAXINT ->
  length (g_strsplit s delim (-1)) = S (count_char delim s) /\
  Forall (fun t => has_char delim t = false) (g_strsplit s delim (-1)).
Proof.
  intros Hne Hlen. destruct s as [|c r]; [congruence|].
  unfold g_strsplit. change (-1 <? 1) with true. cbv iota.
  apply split_loop_all. pose proof (count_char_le_length delim (String c r)). lia.
Qed.

(** [_parse_profile_key] fails on the empty payload only; otherwise the
    payload is the key, followed by [@] and the profile when there is one,
    the key holds no [@], and the profile is [NULL] exactly when the payload
    holds no [@]. *)
Theorem _parse_profile_key_cases (payload : string) :
  match _parse_profile_key (Some payload) with
  | None => payload = EmptyString
  | Some (key, profile) =>
      payload <> EmptyString /\
      payload = key +:+ parent_suffix profile /\
      has_char "@"%char key = false /\
      (profile = None <-> has_char "@"%char payload = false)
  end.
Proof.
  unfold _parse_profile_key, g_strsplit.
  destruct payload as [|c r] eqn:Hp; [reflexivity|]. rewrite <- Hp.
  assert (payload <> EmptyString) as Hne by (rewrite Hp; discriminate).
  change (2 <? 1) with false. cbv iota. change (2 - 1) with 1.
  destruct (split_loop_once "@"%char payload) as [[-> Hno]|(a & b & -> & Heq & Hno)]; simpl.
  - repeat split; auto.
    clear. induction payload as [|a s IH]; [reflexivity|].
    change (String a s = String a (s +:+ EmptyString)). congruence.
  - repeat split; auto; [discriminate|].
    intros Hfalse. exfalso. rewrite Heq in Hfalse. clear -Hfalse.
    induction a as [|x a IH].
    + simpl in Hfalse. discriminate.
    + rewrite append_cons in Hfalse. simpl in Hfalse.
      apply orb_false_iff in Hfalse as [_ H]. auto.
Qed.

(** [_parse_required_plugins] leaves the context alone when there is no
    [plugins] key; otherwise it appends the space-separated pieces of the
    value, in order: joined by spaces they give the value back, an empty
    value appends nothing, and a non-empty one appends one name more than
    it has spaces (so repeated spaces give empty names), none of them
    holding a space. *)
Theorem _parse_required_plugins_tokens (ctx : Context) (k : GKeyFile) :
  match get_string_or_null k GROUP_GENERAL "plugins" with
  | None => _parse_required_plugins ctx k = ctx
  | Some value =>
      exists names,
        required_plugins (_parse_required_plugins ctx k) = required_plugins ctx ++ names /\
        join " "%char names = value /\
        (value = EmptyString -> names = []) /\
        (value <> EmptyString -> Z.of_nat (String.length value) < G_MAXINT ->
         length names = S (count_char " "%char value) /\
         Forall (fun name => has_char " "%char name = false) names)
  end.
Proof.
  unfold _parse_required_plugins.
  destruct (get_string_or_null k GROUP_GENERAL "plugins") as [value|]; [|reflexivity].
  exists (g_strsplit value " "%char (-1)). simpl. repeat split.
  - apply g_strsplit_join.
  - intros ->. reflexivity.
  - apply g_strsplit_all; assumption.
  - apply g_strsplit_all; assumption.
Qed.

Lemma _parse_required_plugins_tokens_witness :
  exists names,
    required_plugins (_parse_required_plugins empty_context chain_conf) = [] ++ names /\
    length names = 3%nat.
Proof.
  destruct (_parse_required_plugins_tokens empty_context chain_conf)
    as (names & Hp & _ & _ & Hall).
  exists names. split; [exact Hp|].
  apply Hall; [discriminate|reflexivity].
Defined.

(** ** More on the resolver *)

Section Chains.
Variable groups : gmap string string.
Variable k : GKeyFile.

Local Abbreviation resolve fuel st name := (_parse_single_event fuel groups k st name).

(** A call of [_parse_single_event] returns within a bound exactly when
    the chain of declared parents ends within it: at a name already done,
    at a name without a group, or at a base event. *)
Theorem resolve_returns_iff_chain_ends (fuel : nat) (st : Resolver) (name : string) :
  is_Some (resolve fuel st name) <-> chain_ends groups (events_done st) fuel name.
Proof.
  split.
  - revert name. induction fuel as [|fuel IH]; intros name [st' H]; [discriminate|].
    apply resolve_cases in H
      as [[_ [Hd|Hg]]|[(group & Hd & Hg & Hp & _)|(group & p & st1 & Hd & Hg & Hp & Hr & _)]].
    + apply chain_ends_done; assumption.
    + apply chain_ends_no_group; assumption.
    + eapply chain_ends_base; eassumption.
    + eapply chain_ends_step; eauto.
  - induction 1 as [n name Hd|n name Hg|n name group Hg Hp|n name group p Hd Hg Hp Hc IH].
    + rewrite resolve_done by assumption. eauto.
    + rewrite resolve_no_group by assumption. eauto.
    + destruct (decide (name ∈ events_done st)) as [Hd|Hd].
      * rewrite resolve_done by assumption. eauto.
      * rewrite (resolve_base _ _ _ _ _ _ Hd Hg Hp). eauto.
    + rewrite (resolve_derived _ _ _ _ _ _ _ Hd Hg Hp).
      destruct IH as [st1 ->]. eauto.
Qed.

(** A set of names, none of them done, each declaring a parent in the
    set: no call on one of them returns. *)
Lemma resolve_cycle (P : string -> Prop) (st : Resolver) :
  (forall n, P n ->
     (n ∉ events_done st) /\
     exists g p, groups !! n = Some g /\ _parse_group_parent g = Some p /\ P p) ->
  forall fuel name, P name -> resolve fuel st name = None.
Proof.
  intros Hclosed. induction fuel as [|fuel IH]; intros name HP; [reflexivity|].
  destruct (Hclosed name HP) as (Hd & g & p & Hg & Hp & HPp).
  rewrite (resolve_derived _ _ _ _ _ _ _ Hd Hg Hp). rewrite (IH p HPp). reflexivity.
Qed.

Lemma resolve_all_cycle (P : string -> Prop) fuel keys : forall st name,
  (forall n, P n ->
     (n ∉ events_done st) /\
     exists g p, groups !! n = Some g /\ _parse_group_parent g = Some p /\ P p) ->
  P name -> name ∈ keys ->
  resolve_all fuel groups k st keys = None.
Proof.
  induction keys as [|key keys IH]; intros st name Hclosed HP Hin; [inversion Hin|].
  simpl. destruct (resolve fuel st key) as [st1|] eqn:Hr; [|reflexivity].
  assert (key <> name) as Hne.
  { intros ->. rewrite (resolve_cycle P st Hclosed fuel name HP) in Hr. discriminate. }
  apply elem_of_cons in Hin as [->|Hin]; [congruence|].
  apply (IH st1 name); [|assumption|assumption].
  intros n Hn. destruct (Hclosed n Hn) as (Hd & Hrest). split; [|exact Hrest].
  intros Hd1. destruct (resolve_newly_done _ _ _ _ _ _ _ Hr Hd Hd1) as [sty Hy].
  rewrite (resolve_cycle P st Hclosed fuel n Hn) in Hy. discriminate.
Qed.

Lemma resolved_set_S fuel name :
  resolved_set (S fuel) groups k name
  = match groups !! name with
    | None => Some None
    | Some group =>
        match _parse_group_parent group with
        | None => Some (Some (scan_entries k group true))
        | Some p =>
            match resolved_set fuel groups k p with
            | None => None
            | Some inherited =>
                Some (n_proplist_merge (n_proplist_copy inherited)
                                       (scan_entries k group false))
            end
        end
    end.
Proof. reflexivity. Qed.

Lemma resolved_set_mono fuel name v :
  resolved_set fuel groups k name = Some v -> resolved_set (S fuel) groups k name = Some v.
Proof.
  revert name v. induction fuel as [|fuel IH]; intros name v H; [discriminate|].
  rewrite resolved_set_S in H. rewrite resolved_set_S.
  destruct (groups !! name) as [group|]; [|assumption].
  destruct (_parse_group_parent group) as [p|]; [|assumption].
  destruct (resolved_set fuel groups k p) as [inh|] eqn:Hp; [|discriminate].
  rewrite (IH _ _ Hp). assumption.
Qed.

Lemma resolved_set_mono_le fuel fuel' name v :
  (fuel <= fuel')%nat ->
  resolved_set fuel groups k name = Some v -> resolved_set fuel' groups k name = Some v.
Proof.
  induction 1 as [|m Hle IH]; [auto|]. intros H. apply resolved_set_mono. auto.
Qed.

Lemma resolved_set_unique fuel fuel' name v v' :
  resolved_set fuel groups k name = Some v ->
  resolved_set fuel' groups k name = Some v' -> v = v'.
Proof.
  intros H H'.
  apply (resolved_set_mono_le fuel (fuel `max` fuel')%nat) in H; [|lia].
  apply (resolved_set_mono_le fuel' (fuel `max` fuel')%nat) in H'; [|lia].
  congruence.
Qed.

Lemma resolver_inv_initial : resolver_inv groups k initial_resolver.
Proof.
  split; [|split]; simpl.
  - intros n. split; [intros H; inversion H|].
    intros [x Hx]. rewrite lookup_empty in Hx. discriminate.
  - intros n H. inversion H.
  - intros n v H. rewrite lookup_empty in H. discriminate.
Qed.

Lemma resolver_inv_insert st name group v :
  resolver_inv groups k st ->
  groups !! name = Some group ->
  (exists fuel, resolved_set fuel groups k name = Some v) ->
  resolver_inv groups k
    (mkResolver (<[name := v]> (sd_events st)) (events_done st ++ [name])).
Proof.
  intros (H1 & H2 & H3) Hg Hv. split; [|split]; simpl.
  - intros n. split.
    + intros Hin. apply elem_of_app in Hin as [Hin|Hin].
      * destruct (decide (name = n)) as [->|Hne]; [rewrite lookup_insert_eq; eauto|].
        rewrite lookup_insert_ne by assumption. apply H1; assumption.
      * apply list_elem_of_singleton in Hin as ->. rewrite lookup_insert_eq. eauto.
    + intros Hs. apply elem_of_app.
      destruct (decide (name = n)) as [->|Hne].
      * right. apply list_elem_of_singleton. reflexivity.
      * rewrite lookup_insert_ne in Hs by assumption. left. apply H1; assumption.
  - intros n Hin. apply elem_of_app in Hin as [Hin|Hin]; [auto|].
    apply list_elem_of_singleton in Hin as ->. eauto.
  - intros n v' Hl. destruct (decide (name = n)) as [->|Hne].
    + rewrite lookup_insert_eq in Hl. injection Hl as <-. assumption.
    + rewrite lookup_insert_ne in Hl by assumption. eauto.
Qed.

Lemma resolver_inv_preserved fuel : forall st name st',
  resolve fuel st name = Some st' ->
  resolver_inv groups k st -> resolver_inv groups k st'.
Proof.
  induction fuel as [|fuel IH]; intros st name st' H Hinv; [discriminate|].
  apply resolve_cases in H
    as [[-> _]|[(group & Hd & Hg & Hp & ->)|(group & p & st1 & Hd & Hg & Hp & Hr & ->)]].
  - assumption.
  - apply (resolver_inv_insert _ _ group); [assumption|assumption|].
    exists 1%nat. unfold stored_set. rewrite resolved_set_S, Hg, Hp. reflexivity.
  - pose proof (IH _ _ _ Hr Hinv) as Hinv1.
    apply (resolver_inv_insert _ _ group); [assumption|assumption|].
    assert (exists f, resolved_set f groups k p
                      = Some (g_hash_table_lookup (sd_events st1) p)) as [f Hf].
    { unfold g_hash_table_lookup. destruct (sd_events st1 !! p) as [v|] eqn:Hl.
      - destruct Hinv1 as (_ & _ & H3). exact (H3 _ _ Hl).
      - exists 1%nat. rewrite resolved_set_S.
        destruct (groups !! p) as [gp|] eqn:Hgp; [|reflexivity].
        exfalso. destruct (resolve_growth _ _ _ _ _ _ Hr) as (new & _ & _ & _ & _ & Hin).
        destruct Hinv1 as (H1 & _ & _).
        assert (p ∈ events_done st1) as Hd1 by (apply Hin; eauto).
        apply H1 in Hd1. rewrite Hl in Hd1. destruct Hd1; discriminate. }
    exists (S f). unfold stored_set. rewrite resolved_set_S, Hg, Hp, Hf. reflexivity.
Qed.

Lemma resolve_all_inv fuel keys : forall st st',
  resolve_all fuel groups k st keys = Some st' ->
  resolver_inv groups k st ->
  resolver_inv groups k st' /\
  (forall n, n ∈ events_done st -> n ∈ events_done st') /\
  (forall key, key ∈ keys -> is_Some (groups !! key) -> key ∈ events_done st').
Proof.
  induction keys as [|key keys IH]; intros st st' H Hinv; simpl in H.
  - injection H as <-. split; [assumption|]. split; [auto|].
    intros key Hin. inversion Hin.
  - destruct (resolve fuel st key) as [st1|] eqn:Hr; [|discriminate].
    destruct (IH _ _ H (resolver_inv_preserved _ _ _ _ Hr Hinv)) as (Hinv' & Hgrow & Hall).
    destruct (resolve_growth _ _ _ _ _ _ Hr) as (new & Hd & _ & _ & _ & Hin).
    split; [assumption|]. split.
    + intros n Hn. apply Hgrow. rewrite Hd. apply elem_of_app. auto.
    + intros key' Hk Hg. apply elem_of_cons in Hk as [->|Hk]; [|auto].
      apply Hgrow. auto.
Qed.

(** A pass started from the empty state keeps the done list and the table
    in step; every name of the pass that has a group ends with the set
    [resolved_set] gives it, a function of the key file alone; so two
    passes that both visit every event name build the same table, in
    whatever order (and with whatever bound) they visit them. *)
Theorem resolution_is_a_function_of_the_key_file (fuel : nat) (keys : list string)
    (st : Resolver)
    (Hpass : resolve_all fuel groups k initial_resolver keys = Some st) :
  resolver_inv groups k st /\
  (forall name, name ∈ keys -> is_Some (groups !! name) ->
     exists v f, sd_events st !! name = Some v /\ resolved_set f groups k name = Some v) /\
  (forall fuel' keys' st',
     resolve_all fuel' groups k initial_resolver keys' = Some st' ->
     (forall name, is_Some (groups !! name) -> name ∈ keys) ->
     (forall name, is_Some (groups !! name) -> name ∈ keys') ->
     sd_events st' = sd_events st).
Proof.
  destruct (resolve_all_inv _ _ _ _ Hpass resolver_inv_initial) as (Hinv & _ & Hall).
  assert (forall fuel0 keys0 st0,
             resolve_all fuel0 groups k initial_resolver keys0 = Some st0 ->
             forall name, name ∈ keys0 -> is_Some (groups !! name) ->
             exists v f, sd_events st0 !! name = Some v /\
                         resolved_set f groups k name = Some v) as Hlookup.
  { intros fuel0 keys0 st0 H0 name Hin Hg.
    destruct (resolve_all_inv _ _ _ _ H0 resolver_inv_initial) as ((H1 & H2 & H3) & _ & Hall0).
    destruct (proj1 (H1 name) (Hall0 name Hin Hg)) as [v Hv].
    destruct (H3 _ _ Hv) as [f Hf]. eauto. }
  split; [assumption|]. split; [exact (Hlookup _ _ _ Hpass)|].
  intros fuel' keys' st' Hpass' Hk Hk'.
  destruct (resolve_all_inv _ _ _ _ Hpass' resolver_inv_initial) as (Hinv' & _ & _).
  apply map_eq. intros n.
  destruct (groups !! n) as [g|] eqn:Hg.
  - destruct (Hlookup _ _ _ Hpass n (Hk n (mk_is_Some _ _ Hg)) (mk_is_Some _ _ Hg))
      as (v & f & -> & Hf).
    destruct (Hlookup _ _ _ Hpass' n (Hk' n (mk_is_Some _ _ Hg)) (mk_is_Some _ _ Hg))
      as (v' & f' & -> & Hf').
    f_equal. exact (resolved_set_unique _ _ _ _ _ Hf' Hf).
  - assert (forall s, resolver_inv groups k s -> sd_events s !! n = None) as Hnone.
    { intros s (H1 & H2 & _). destruct (sd_events s !! n) eqn:Hl; [|reflexivity].
      exfalso. assert (n ∈ events_done s) as Hd by (apply H1; rewrite Hl; eauto).
      apply H2 in Hd. rewrite Hg in Hd. destruct Hd; discriminate. }
    rewrite (Hnone _ Hinv), (Hnone _ Hinv'). reflexivity.
Qed.

End Chains.

Lemma resolve_returns_iff_chain_ends_witness :
  is_Some (_parse_single_event 3 (build_groups chain_conf) chain_conf initial_resolver "beep").
Proof.
  apply resolve_returns_iff_chain_ends.
  apply (chain_ends_step _ _ _ "beep" "event beep@call" "call");
    [inversion 1|vm_compute; reflexivity|vm_compute; reflexivity|].
  apply (chain_ends_step _ _ _ "call" "event call@root" "root");
    [inversion 1|vm_compute; reflexivity|vm_compute; reflexivity|].
  apply (chain_ends_base _ _ _ "root" "event root"); vm_compute; reflexivity.
Defined.

Lemma scan_entries_complete k group : complete (scan_entries k group true).
Proof.
  intros entry Hin. rewrite scan_entries_lookup by assumption.
  unfold contribution. destruct (read_entry k group entry); eauto.
Qed.

Lemma scan_entries_lookup_other k group is_base key :
  key ∉ map ke_key event_entries -> scan_entries k group is_base !! key = None.
Proof.
  intros Hout. unfold scan_entries. rewrite scan_lookup_other by assumption.
  apply lookup_empty.
Qed.

Lemma scan_entries_within_schema k group is_base :
  within_schema (scan_entries k group is_base).
Proof.
  intros key [v Hv].
  destruct (decide (key ∈ map ke_key event_entries)) as [Hin|Hout]; [assumption|].
  rewrite scan_entries_lookup_other in Hv by assumption. discriminate.
Qed.

Lemma resolved_set_schema groups k fuel : forall name proplist,
  resolved_set fuel groups k name = Some (Some proplist) ->
  complete proplist /\ within_schema proplist.
Proof.
  induction fuel as [|fuel IH]; intros name proplist H; [discriminate|].
  rewrite resolved_set_S in H. destruct (groups !! name) as [group|]; [|discriminate].
  destruct (_parse_group_parent group) as [p|].
  - destruct (resolved_set fuel groups k p) as [[inherited|]|] eqn:Hp; try discriminate.
    unfold n_proplist_merge, n_proplist_copy in H. injection H as <-.
    destruct (IH _ _ Hp) as [Hc Hw]. split.
    + intros entry Hin. apply lookup_union_is_Some. right. auto.
    + intros key Hs. apply lookup_union_is_Some in Hs as [Hs|Hs]; [|auto].
      exact (scan_entries_within_schema _ _ _ _ Hs).
  - injection H as <-. split; [apply scan_entries_complete|apply scan_entries_within_schema].
Qed.

(** After a pass, every set of the table that is not [NULL] has a value
    for each of the schema keys and for no other key. *)
Theorem resolved_sets_have_the_schema_keys (groups : gmap string string) (k : GKeyFile)
    (fuel : nat) (keys : list string) (st : Resolver) (name : string) (proplist : NProplist)
    (Hpass : resolve_all fuel groups k initial_resolver keys = Some st)
    (Hset : sd_events st !! name = Some (Some proplist)) :
  forall key, is_Some (proplist !! key) <-> key ∈ map ke_key event_entries.
Proof.
  destruct (resolve_all_inv _ _ _ _ _ _ Hpass (resolver_inv_initial groups k))
    as ((_ & _ & H3) & _ & _).
  destruct (H3 _ _ Hset) as [f Hf].
  destruct (resolved_set_schema _ _ _ _ _ Hf) as [Hc Hw].
  intros key. split; [apply Hw|].
  intros Hin. apply list_elem_of_fmap in Hin as (entry & -> & Hin). auto.
Qed.

(** A derived event whose parent has a set: its own set holds, for every
    schema key, the value read from its own group when the typed read
    succeeds and the parent's value otherwise; other keys come from the
    parent; the parent's set is left as it was. *)
Theorem derived_event_overlays_parent (groups : gmap string string) (k : GKeyFile)
    (fuel : nat) (st st1 : Resolver) (name group p : string) (inherited : NProplist)
    (Hfresh : _event_is_done (events_done st) name = false)
    (Hgroup : groups !! name = Some group)
    (Hparent : _parse_group_parent group = Some p)
    (Hp : _parse_single_event fuel groups k st p = Some st1)
    (Hinherited : sd_events st1 !! p = Some (Some inherited)) :
  exists st' proplist,
    _parse_single_event (S fuel) groups k st name = Some st' /\
    sd_events st' !! name = Some (Some proplist) /\
    sd_events st' !! p = Some (Some inherited) /\
    (forall entry, entry ∈ event_entries ->
       proplist !! ke_key entry
       = match read_entry k group entry with
         | KeyOk v => Some v
         | KeyError _ => inherited !! ke_key entry
         end) /\
    (forall key, key ∉ map ke_key event_entries -> proplist !! key = inherited !! key).
Proof.
  apply _event_is_done_false in Hfresh.
  pose proof (resolve_parent_leaves_child _ _ _ _ _ _ _ _ Hfresh Hgroup Hparent Hp) as Hleft.
  assert (name <> p) as Hne.
  { intros ->. destruct (resolve_growth _ _ _ _ _ _ Hp) as (new & _ & _ & _ & _ & Hin).
    apply Hleft, Hin. eauto. }
  eexists. exists (scan_entries k group false ∪ inherited).
  split; [|split; [|split; [|split]]].
  - rewrite (resolve_derived _ _ _ _ _ _ _ Hfresh Hgroup Hparent), Hp. reflexivity.
  - cbn [sd_events]. rewrite lookup_insert_eq. unfold stored_set, g_hash_table_lookup.
    rewrite Hparent, Hinherited. reflexivity.
  - cbn [sd_events]. rewrite lookup_insert_ne by assumption. assumption.
  - intros entry Hin. rewrite lookup_union, scan_entries_lookup by assumption.
    unfold contribution.
    destruct (read_entry k group entry); destruct (inherited !! ke_key entry); reflexivity.
  - intros key Hout. rewrite lookup_union, scan_entries_lookup_other by assumption.
    destruct (inherited !! key); reflexivity.
Qed.

(** ** More on the resource references *)

Lemma _check_path_exists w basename search_path path :
  _check_path w basename search_path = Some path -> g_file_test_exists w path = true.
Proof.
  unfold _check_path.
  destruct (g_file_test_exists w basename) eqn:Hb; [congruence|].
  destruct (g_file_test_exists w (g_build_filename search_path basename)) eqn:Hj;
    congruence.
Qed.

(** [_check_path] returns a path that exists: the name as given when that
    exists, else its join with the search directory; it returns nothing
    exactly when neither exists. *)
Theorem _check_path_sound (w : World) (basename : string) (search_path : option string) :
  match _check_path w basename search_path with
  | Some path =>
      g_file_test_exists w path = true /\
      (path = basename \/
       (g_file_test_exists w basename = false /\
        path = g_build_filename search_path basename))
  | None =>
      g_file_test_exists w basename = false /\
      g_file_test_exists w (g_build_filename search_path basename) = false
  end.
Proof.
  unfold _check_path.
  destruct (g_file_test_exists w basename) eqn:Hb; [auto|].
  destruct (g_file_test_exists w (g_build_filename search_path basename)) eqn:Hj; auto.
Qed.

Lemma sound_entry_well_formed w dir entry sp :
  sound_entry w dir entry = Some sp -> sound_path_well_formed w sp.
Proof.
  unfold sound_entry, sound_path_well_formed.
  destruct (_strip_prefix entry "profile:") as [payload|].
  - destruct (profile_payload payload) as [[key profile]|]; [|discriminate].
    intros [= <-]. simpl. eauto.
  - destruct (_strip_prefix entry "filename:") as [path|]; [|discriminate].
    destruct (_check_path w path dir) as [f|] eqn:Hc; [|discriminate].
    intros [= <-]. simpl. pose proof (_check_path_exists _ _ _ _ Hc). eauto.
Qed.

Lemma pattern_entry_well_formed w dir entry vp :
  pattern_entry w dir entry = Some vp -> pattern_well_formed w vp.
Proof.
  unfold pattern_entry, pattern_well_formed.
  destruct (_strip_prefix entry "profile:") as [payload|].
  - destruct (profile_payload payload) as [[key profile]|]; [|discriminate].
    intros [= <-]. simpl. eauto.
  - destruct (_strip_prefix entry "filename:") as [path|].
    + destruct (_check_path w path dir) as [f|] eqn:Hc; [|discriminate].
      intros [= <-]. simpl. pose proof (_check_path_exists _ _ _ _ Hc). eauto.
    + destruct (_strip_prefix entry "internal:"); [|discriminate].
      intros [= <-]. simpl. auto.
Qed.

Lemma _create_sound_paths_entries w ctx str :
  snd (_create_sound_paths w ctx str)
  = match str with
    | None => []
    | Some raw => omap (sound_entry w (sound_path ctx)) (g_strsplit raw ";"%char (-1))
    end.
Proof.
  destruct str as [raw|]; [|reflexivity]. unfold _create_sound_paths.
  destruct (g_strsplit raw ";"%char (-1)) as [|s l] eqn:Hs; [reflexivity|].
  apply sound_paths_loop_entries.
Qed.

Lemma _create_patterns_entries w ctx str :
  snd (_create_patterns w ctx str)
  = match str with
    | None => []
    | Some raw => omap (pattern_entry w (patterns_path ctx)) (g_strsplit raw ";"%char (-1))
    end.
Proof.
  destruct str as [raw|]; [|reflexivity]. unfold _create_patterns.
  destruct (g_strsplit raw ";"%char (-1)) as [|s l] eqn:Hs; [reflexivity|].
  apply patterns_loop_entries.
Qed.

Lemma length_omap_le {A B} (f : A -> option B) l : (length (omap f l) <= length l)%nat.
Proof.
  induction l as [|a l IH]; [reflexivity|].
  change (omap f (a :: l))
    with (match f a with Some y => y :: omap f l | None => omap f l end).
  destruct (f a); simpl; lia.
Qed.

(** Every sound path and vibration pattern the parsers return is well
    formed (a profile reference has a key and no file name, a file
    reference names an existing file and has no key, an internal pattern
    has neither), and there are no more of them than entries in the
    field. *)
Theorem parsed_references_are_well_formed (w : World) (ctx : Context) (str : option string) :
  Forall (sound_path_well_formed w) (snd (_create_sound_paths w ctx str)) /\
  Forall (pattern_well_formed w) (snd (_create_patterns w ctx str)) /\
  (length (snd (_create_sound_paths w ctx str))
   <= length (match str with
              | Some raw => g_strsplit raw ";"%char (-1)
              | None => []
              end))%nat /\
  (length (snd (_create_patterns w ctx str))
   <= length (match str with
              | Some raw => g_strsplit raw ";"%char (-1)
              | None => []
              end))%nat.
Proof.
  rewrite _create_sound_paths_entries, _create_patterns_entries.
  split; [|split].
  - destruct str as [raw|]; [|constructor].
    apply Forall_forall. intros sp Hin.
    apply list_elem_of_omap in Hin as (entry & _ & He).
    exact (sound_entry_well_formed _ _ _ _ He).
  - destruct str as [raw|]; [|constructor].
    apply Forall_forall. intros vp Hin.
    apply list_elem_of_omap in Hin as (entry & _ & He).
    exact (pattern_entry_well_formed _ _ _ _ He).
  - split; (destruct str as [raw|]; [apply length_omap_le|reflexivity]).
Qed.

(** ** Tables built by a loop over the groups *)

Section Collect.
Context {V : Type}.
Variable sel : string -> option (string * V).

Local Abbreviation step :=
  (fun (m : gmap string V) (g : string) =>
     match sel g with
     | Some (n, v) => <[n := v]> m
     | None => m
     end).

Lemma collect_sound l : forall m name v,
  foldl step m l !! name = Some v ->
  m !! name = Some v \/ exists g, g ∈ l /\ sel g = Some (name, v).
Proof.
  induction l as [|g l IH]; intros m name v H; simpl in H; [auto|].
  apply IH in H as [H|(g' & Hin & Hs)].
  - destruct (sel g) as [[n v']|] eqn:Hs; [|auto].
    destruct (decide (n = name)) as [->|Hne].
    + rewrite lookup_insert_eq in H. injection H as ->.
      right. exists g. split; [apply list_elem_of_here|assumption].
    + rewrite lookup_insert_ne in H by assumption. auto.
  - right. exists g'. split; [apply list_elem_of_further|]; assumption.
Qed.

Lemma collect_untouched l : forall m name,
  (forall g v, g ∈ l -> sel g <> Some (name, v)) ->
  foldl step m l !! name = m !! name.
Proof.
  induction l as [|g l IH]; intros m name Hno; simpl; [reflexivity|].
  rewrite IH.
  - destruct (sel g) as [[n v]|] eqn:Hs; [|reflexivity].
    apply lookup_insert_ne. intros ->.
    apply (Hno g v); [apply list_elem_of_here|assumption].
  - intros g' v Hin. apply Hno. apply list_elem_of_further. assumption.
Qed.

Lemma collect_last l1 l2 g m name v :
  sel g = Some (name, v) ->
  (forall g' v', g' ∈ l2 -> sel g' <> Some (name, v')) ->
  foldl step m (l1 ++ g :: l2) !! name = Some v.
Proof.
  intros Hs Hno. rewrite foldl_app. simpl.
  rewrite collect_untouched by assumption.
  rewrite Hs. apply lookup_insert_eq.
Qed.
End Collect.

(** The group of an event name, if the group string declares an event. *)
Lemma build_groups_as_collect k :
  build_groups k
  = foldl (fun (m : gmap string string) g =>
             match (if g_str_has_prefix g GROUP_EVENT
                    then option_map (fun n => (n, g)) (_parse_group_name g)
                    else None) with
             | Some (n, v) => <[n := v]> m
             | None => m
             end) ∅ (g_key_file_get_groups k).
Proof.
  unfold build_groups. generalize (∅ : gmap string string).
  induction (g_key_file_get_groups k) as [|g l IH]; intros m; [reflexivity|].
  cbn [foldl]. rewrite IH. f_equal.
  destruct (g_str_has_prefix g GROUP_EVENT); [|reflexivity].
  destruct (_parse_group_name g); reflexivity.
Qed.

(** The group index: a name is bound only to a group of the key file that
    starts with [event] and parses to that name, and among several such
    groups the last one of the file is the one bound. *)
Theorem build_groups_lookup (k : GKeyFile) (name group : string) :
  (build_groups k !! name = Some group ->
   group ∈ g_key_file_get_groups k /\
   g_str_has_prefix group GROUP_EVENT = true /\
   _parse_group_name group = Some name) /\
  (forall before after,
     g_key_file_get_groups k = before ++ group :: after ->
     g_str_has_prefix group GROUP_EVENT = true ->
     _parse_group_name group = Some name ->
     (forall g, g ∈ after -> g_str_has_prefix g GROUP_EVENT = true ->
                _parse_group_name g <> Some name) ->
     build_groups k !! name = Some group).
Proof.
  rewrite build_groups_as_collect. split.
  - intros H. apply collect_sound in H as [H|(g & Hin & Hs)].
    + rewrite lookup_empty in H. discriminate.
    + destruct (g_str_has_prefix g GROUP_EVENT) eqn:Hp; [|discriminate].
      destruct (_parse_group_name g) as [n|] eqn:Hn; [|discriminate].
      simpl in Hs. injection Hs as -> ->. auto.
  - intros before after -> Hp Hn Hno. apply collect_last.
    + rewrite Hp, Hn. reflexivity.
    + intros g v' Hin Hs.
      destruct (g_str_has_prefix g GROUP_EVENT) eqn:Hp'; [|discriminate].
      destruct (_parse_group_name g) as [n|] eqn:Hn'; [|discriminate].
      simpl in Hs. injection Hs as -> ->. exact (Hno _ Hin Hp' Hn').
Qed.

Lemma build_groups_lookup_witness :
  build_groups base_conf !! "left" = Some "event left@base".
Proof.
  apply (proj2 (build_groups_lookup base_conf "left" "event left@base")
           ["general"; "event base"] ["event right@base"]);
    [reflexivity|reflexivity|reflexivity|].
  intros g Hin _. apply list_elem_of_singleton in Hin as ->. discriminate.
Defined.

Lemma _parse_definitions_as_collect k : forall ctx,
  definitions (_parse_definitions ctx k)
  = foldl (fun (m : gmap string EventDefinition) g =>
             match (if g_str_has_prefix g GROUP_DEFINITION
                    then option_map
                           (fun n => (n, mkEventDefinition (get_string_or_null k g "long")
                                                           (get_string_or_null k g "short")
                                                           (get_string_or_null k g "meeting")))
                           (_parse_group_name g)
                    else None) with
             | Some (n, v) => <[n := v]> m
             | None => m
             end) (definitions ctx) (g_key_file_get_groups k) /\
  required_plugins (_parse_definitions ctx k) = required_plugins ctx /\
  patterns_path (_parse_definitions ctx k) = patterns_path ctx /\
  sound_path (_parse_definitions ctx k) = sound_path ctx /\
  audio_buffer_time (_parse_definitions ctx k) = audio_buffer_time ctx /\
  audio_latency_time (_parse_definitions ctx k) = audio_latency_time ctx /\
  system_volume (_parse_definitions ctx k) = system_volume ctx /\
  ctx_events (_parse_definitions ctx k) = ctx_events ctx /\
  ctx_sounds (_parse_definitions ctx k) = ctx_sounds ctx /\
  ctx_volumes (_parse_definitions ctx k) = ctx_volumes ctx /\
  ctx_patterns (_parse_definitions ctx k) = ctx_patterns ctx.
Proof.
  unfold _parse_definitions.
  induction (g_key_file_get_groups k) as [|g l IH]; intros ctx.
  - repeat split.
  - cbn [foldl]. destruct (g_str_has_prefix g GROUP_DEFINITION); [|apply IH].
    destruct (_parse_group_name g) as [n|]; [|apply IH].
    destruct (IH (set_definitions ctx
                    (<[n := mkEventDefinition (get_string_or_null k g "long")
                                              (get_string_or_null k g "short")
                                              (get_string_or_null k g "meeting")]>
                       (definitions ctx)))) as (-> & -> & -> & -> & -> & -> & -> & -> & -> & -> & ->).
    repeat split.
Qed.

(** [_parse_definitions]: a definition found afterwards was there before or
    comes from a [definition] group of that name, with its [long], [short]
    and [meeting] strings; the last such group of the file wins; a name no
    such group has keeps what it had; events, system volume and search
    paths are not touched. *)
Theorem _parse_definitions_lookup (ctx : Context) (k : GKeyFile) (name : string) :
  (forall def,
     definitions (_parse_definitions ctx k) !! name = Some def ->
     definitions ctx !! name = Some def \/
     exists group,
       group ∈ g_key_file_get_groups k /\
       g_str_has_prefix group GROUP_DEFINITION = true /\
       _parse_group_name group = Some name /\
       def = mkEventDefinition (get_string_or_null k group "long")
                               (get_string_or_null k group "short")
                               (get_string_or_null k group "meeting")) /\
  (forall before group after,
     g_key_file_get_groups k = before ++ group :: after ->
     g_str_has_prefix group GROUP_DEFINITION = true ->
     _parse_group_name group = Some name ->
     (forall g, g ∈ after -> g_str_has_prefix g GROUP_DEFINITION = true ->
                _parse_group_name g <> Some name) ->
     definitions (_parse_definitions ctx k) !! name
     = Some (mkEventDefinition (get_string_or_null k group "long")
                               (get_string_or_null k group "short")
                               (get_string_or_null k group "meeting"))) /\
  ((forall g, g ∈ g_key_file_get_groups k -> g_str_has_prefix g GROUP_DEFINITION = true ->
              _parse_group_name g <> Some name) ->
   definitions (_parse_definitions ctx k) !! name = definitions ctx !! name) /\
  ctx_events (_parse_definitions ctx k) = ctx_events ctx /\
  system_volume (_parse_definitions ctx k) = system_volume ctx /\
  sound_path (_parse_definitions ctx k) = sound_path ctx /\
  patterns_path (_parse_definitions ctx k) = patterns_path ctx.
Proof.
  destruct (_parse_definitions_as_collect k ctx)
    as (-> & _ & Hpp & Hsp & _ & _ & Hsv & Hev & _).
  split; [|split; [|split]]; [| | |auto].
  - intros def H. apply collect_sound in H as [H|(g & Hin & Hs)]; [auto|].
    right. exists g.
    destruct (g_str_has_prefix g GROUP_DEFINITION) eqn:Hp; [|discriminate].
    destruct (_parse_group_name g) as [n|] eqn:Hn; [|discriminate].
    simpl in Hs. injection Hs as -> <-. auto.
  - intros before group after -> Hp Hn Hno. apply collect_last.
    + rewrite Hp, Hn. reflexivity.
    + intros g v' Hin Hs.
      destruct (g_str_has_prefix g GROUP_DEFINITION) eqn:Hp'; [|discriminate].
      destruct (_parse_group_name g) as [n|] eqn:Hn'; [|discriminate].
      simpl in Hs. injection Hs as -> _. exact (Hno _ Hin Hp' Hn').
  - intros Hno. apply collect_untouched. intros g v Hin Hs.
    destruct (g_str_has_prefix g GROUP_DEFINITION) eqn:Hp'; [|discriminate].
    destruct (_parse_group_name g) as [n|] eqn:Hn'; [|discriminate].
    simpl in Hs. injection Hs as -> _. exact (Hno _ Hin Hp' Hn').
Qed.

Lemma _parse_definitions_lookup_witness :
  definitions (_parse_definitions empty_context chain_conf) !! "ringtone"
  = Some (mkEventDefinition (Some "call") (Some "beep") None).
Proof.
  apply (proj1 (proj2 (_parse_definitions_lookup empty_context chain_conf "ringtone"))
           ["general"] "definition ringtone"
           ["event root"; "event call@root"; "event beep@call"]);
    [reflexivity|reflexivity|reflexivity|].
  intros g Hin Hp. exfalso. revert Hp.
  repeat (apply elem_of_cons in Hin as [->|Hin]; [discriminate|]).
  inversion Hin.
Defined.

(** ** The materialiser and the driver *)

Lemma pools_only_refl ctx : pools_only ctx ctx.
Proof. repeat split. Qed.

Lemma pools_only_trans a b c : pools_only a b -> pools_only b c -> pools_only a c.
Proof.
  intros [(H1 & H2 & H3 & H4 & H5 & H6 & H7) H8] [(G1 & G2 & G3 & G4 & G5 & G6 & G7) G8].
  repeat split; congruence.
Qed.

Lemma context_add_sound_path_pools ctx sp : pools_only (fst (context_add_sound_path ctx sp)) ctx.
Proof. destruct sp; repeat split. Qed.

Lemma context_add_volume_pools ctx v : pools_only (fst (context_add_volume ctx v)) ctx.
Proof. destruct v; repeat split. Qed.

Lemma context_add_pattern_pools ctx p : pools_only (fst (context_add_pattern ctx p)) ctx.
Proof. destruct p; repeat split. Qed.

Lemma _parse_sound_path_pools w ctx str : pools_only (fst (_parse_sound_path w ctx str)) ctx.
Proof.
  unfold _parse_sound_path.
  destruct (g_str_has_prefix str "profile:").
  - destruct (_parse_profile_key _) as [[key profile]|];
      [apply context_add_sound_path_pools|apply pools_only_refl].
  - destruct (g_str_has_prefix str "filename:"); [|apply context_add_sound_path_pools].
    destruct (_strip_prefix str "filename:"); [|apply pools_only_refl].
    destruct (_check_path _ _ _);
      [apply context_add_sound_path_pools|apply pools_only_refl].
Qed.

Lemma _parse_pattern_pools w ctx str : pools_only (fst (_parse_pattern w ctx str)) ctx.
Proof.
  unfold _parse_pattern.
  destruct (g_str_has_prefix str "profile:").
  - destruct (_parse_profile_key _) as [[key profile]|];
      [apply context_add_pattern_pools|apply pools_only_refl].
  - destruct (g_str_has_prefix str "filename:").
    + destruct (_strip_prefix str "filename:"); [|apply pools_only_refl].
      destruct (_check_path _ _ _);
        [apply context_add_pattern_pools|apply pools_only_refl].
    + destruct (g_str_has_prefix str "internal:"); [|apply context_add_pattern_pools].
      destruct (_strip_prefix str "internal:");
        [apply context_add_pattern_pools|apply pools_only_refl].
Qed.

Lemma sound_paths_loop_pools w entries : forall ctx result,
  pools_only (fst (sound_paths_loop w ctx entries result)) ctx.
Proof.
  induction entries as [|s l IH]; intros ctx result; simpl; [apply pools_only_refl|].
  pose proof (_parse_sound_path_pools w ctx s) as Hs.
  destruct (_parse_sound_path w ctx s) as [ctx' [sp|]]; simpl in Hs;
    exact (pools_only_trans _ _ _ (IH _ _) Hs).
Qed.

Lemma patterns_loop_pools w entries : forall ctx result,
  pools_only (fst (patterns_loop w ctx entries result)) ctx.
Proof.
  induction entries as [|s l IH]; intros ctx result; simpl; [apply pools_only_refl|].
  pose proof (_parse_pattern_pools w ctx s) as Hs.
  destruct (_parse_pattern w ctx s) as [ctx' [sp|]]; simpl in Hs;
    exact (pools_only_trans _ _ _ (IH _ _) Hs).
Qed.

Lemma _create_sound_paths_pools w ctx str : pools_only (fst (_create_sound_paths w ctx str)) ctx.
Proof.
  destruct str as [raw|]; [|apply pools_only_refl]. unfold _create_sound_paths.
  destruct (g_strsplit raw ";"%char (-1)); [apply pools_only_refl|].
  apply sound_paths_loop_pools.
Qed.

Lemma _create_patterns_pools w ctx str : pools_only (fst (_create_patterns w ctx str)) ctx.
Proof.
  destruct str as [raw|]; [|apply pools_only_refl]. unfold _create_patterns.
  destruct (g_strsplit raw ";"%char (-1)); [apply pools_only_refl|].
  apply patterns_loop_pools.
Qed.

Lemma _create_volume_pools ctx str : pools_only (fst (_create_volume ctx str)) ctx.
Proof.
  destruct str as [raw|]; [|apply pools_only_refl]. unfold _create_volume.
  destruct (g_str_has_prefix raw "profile:").
  - destruct (_parse_profile_key _) as [[key profile]|];
      [apply context_add_volume_pools|apply pools_only_refl].
  - destruct (g_str_has_prefix raw "fixed:").
    + destruct (_strip_prefix raw "fixed:");
        [apply context_add_volume_pools|apply pools_only_refl].
    + destruct (g_str_has_prefix raw "linear:"); [|apply context_add_volume_pools].
      destruct (_strip_prefix raw "linear:"); [|apply pools_only_refl].
      destruct (g_strsplit _ _ _) as [|a [|b [|c l]]];
        first [apply context_add_volume_pools|apply pools_only_refl].
Qed.

Lemma _create_volume_any ctx str :
  snd (_create_volume ctx str)
  = match str with None => None | Some raw => volume_entry raw end.
Proof. destruct str; [apply _create_volume_entry|reflexivity]. Qed.

Lemma finalize_event_lookup (w : World) (ctx : Context) (name : string)
    (proplist : option NProplist) :
  ctx_events (finalize_event w ctx name proplist)
  = <[name := event_of_props w (sound_path ctx) (patterns_path ctx) proplist]>
      (ctx_events ctx) /\
  same_settings (finalize_event w ctx name proplist) ctx.
Proof.
  unfold finalize_event, event_of_props.
  pose proof (_create_sound_paths_entries w ctx (n_proplist_get_string proplist "sound")) as Hs.
  pose proof (_create_sound_paths_pools w ctx (n_proplist_get_string proplist "sound")) as Fs.
  destruct (_create_sound_paths w ctx _) as [ctx1 sounds]. simpl in Hs, Fs.
  pose proof (_create_volume_any ctx1 (n_proplist_get_string proplist "volume")) as Hv.
  pose proof (_create_volume_pools ctx1 (n_proplist_get_string proplist "volume")) as Fv.
  destruct (_create_volume ctx1 _) as [ctx2 vol]. simpl in Hv, Fv.
  pose proof (_create_patterns_entries w ctx2 (n_proplist_get_string proplist "vibration")) as Hp.
  pose proof (_create_patterns_pools w ctx2 (n_proplist_get_string proplist "vibration")) as Fp.
  destruct (_create_patterns w ctx2 _) as [ctx3 pats]. simpl in Hp, Fp.
  pose proof (pools_only_trans _ _ _ Fv Fs) as F2.
  pose proof (pools_only_trans _ _ _ Fp F2) as F3.
  destruct F2 as [(_ & Hpp & _) _]. destruct F3 as [Hsame Hev].
  split.
  - cbn [ctx_events set_events]. rewrite Hev, Hs, Hv, Hp, Hpp. reflexivity.
  - exact Hsame.
Qed.

(** [finalize_event] binds the name to the event [event_of_props] gives
    for the property set and the two search paths, replacing what the name
    was bound to, and changes nothing of the settings. *)
Theorem finalize_event_registers (w : World) (ctx : Context) (name : string)
    (proplist : option NProplist) :
  ctx_events (finalize_event w ctx name proplist)
  = <[name := event_of_props w (sound_path ctx) (patterns_path ctx) proplist]>
      (ctx_events ctx) /\
  same_settings (finalize_event w ctx name proplist) ctx.
Proof. exact (finalize_event_lookup w ctx name proplist). Qed.

Lemma same_settings_trans a b c : same_settings a b -> same_settings b c -> same_settings a c.
Proof.
  intros (H1 & H2 & H3 & H4 & H5 & H6 & H7) (G1 & G2 & G3 & G4 & G5 & G6 & G7).
  repeat split; congruence.
Qed.

Lemma finalize_all w l : forall ctx,
  NoDup (l.*1) ->
  same_settings (foldl (fun ctx kv => finalize_event w ctx (fst kv) (snd kv)) ctx l) ctx /\
  forall name,
    ctx_events (foldl (fun ctx kv => finalize_event w ctx (fst kv) (snd kv)) ctx l) !! name
    = match (list_to_map l : gmap string (option NProplist)) !! name with
      | Some v => Some (event_of_props w (sound_path ctx) (patterns_path ctx) v)
      | None => ctx_events ctx !! name
      end.
Proof.
  induction l as [|[n v] l IH]; intros ctx Hnd.
  - split; [repeat split|]. intros name. simpl. rewrite lookup_empty. reflexivity.
  - cbn [foldl fst snd]. rewrite fmap_cons in Hnd. apply NoDup_cons in Hnd as [Hn Hnd].
    destruct (finalize_event_lookup w ctx n v) as [Hev Hsame].
    destruct (IH (finalize_event w ctx n v) Hnd) as [Hsame' Hlook].
    split; [exact (same_settings_trans _ _ _ Hsame' Hsame)|].
    intros name. rewrite Hlook. destruct Hsame as (_ & -> & -> & _).
    simpl. destruct (decide (n = name)) as [->|Hne].
    + rewrite lookup_insert_eq.
      rewrite (not_elem_of_list_to_map_1 _ _ Hn). rewrite Hev, lookup_insert_eq. reflexivity.
    + rewrite lookup_insert_ne by assumption.
      destruct (list_to_map l !! name); [reflexivity|].
      rewrite Hev, lookup_insert_ne by assumption. reflexivity.
Qed.

Lemma _parse_events_bindings (fuel : nat) (w : World) (ctx ctx' : Context) (k : GKeyFile)
    (Hrun : _parse_events fuel w ctx k = Returns ctx') :
  same_settings ctx' ctx /\
  (forall name, is_Some (build_groups k !! name) ->
     exists v f,
       resolved_set f (build_groups k) k name = Some v /\
       ctx_events ctx' !! name
       = Some (event_of_props w (sound_path ctx) (patterns_path ctx) v)) /\
  (forall name, build_groups k !! name = None ->
     ctx_events ctx' !! name = ctx_events ctx !! name).
Proof.
  unfold _parse_events in Hrun.
  destruct (resolve_all fuel (build_groups k) k (mkResolver ∅ [])
              (map fst (map_to_list (build_groups k)))) as [st|] eqn:Hpass; [|discriminate].
  injection Hrun as <-.
  destruct (finalize_all w (map_to_list (sd_events st)) ctx (NoDup_fst_map_to_list _))
    as [Hsame Hlook].
  rewrite list_to_map_to_list in Hlook.
  destruct (resolve_all_inv _ _ _ _ _ _ Hpass (resolver_inv_initial _ _))
    as ((H1 & H2 & H3) & _ & Hall).
  split; [assumption|]. split.
  - intros name [g Hg].
    assert (name ∈ map fst (map_to_list (build_groups k))) as Hin.
    { apply list_elem_of_fmap. exists (name, g). split; [reflexivity|].
      apply elem_of_map_to_list. assumption. }
    destruct (proj1 (H1 name) (Hall name Hin (mk_is_Some _ _ Hg))) as [v Hv].
    destruct (H3 _ _ Hv) as [f Hf].
    exists v, f. split; [assumption|]. rewrite Hlook, Hv. reflexivity.
  - intros name Hg. rewrite Hlook.
    destruct (sd_events st !! name) as [v|] eqn:Hv; [|reflexivity].
    exfalso. assert (name ∈ events_done st) as Hd by (apply H1; eauto).
    apply H2 in Hd. rewrite Hg in Hd. destruct Hd; discriminate.
Qed.

(** When [_parse_events] returns, every event name of the key file is
    bound to the event of its [resolved_set], names that are not event
    names keep what they were bound to, and the settings are unchanged. *)
Theorem _parse_events_materialises (fuel : nat) (w : World) (ctx ctx' : Context) (k : GKeyFile)
    (Hrun : _parse_events fuel w ctx k = Returns ctx') :
  same_settings ctx' ctx /\
  (forall name, is_Some (build_groups k !! name) ->
     exists v f,
       resolved_set f (build_groups k) k name = Some v /\
       ctx_events ctx' !! name
       = Some (event_of_props w (sound_path ctx) (patterns_path ctx) v)) /\
  (forall name, build_groups k !! name = None ->
     ctx_events ctx' !! name = ctx_events ctx !! name).
Proof. exact (_parse_events_bindings fuel w ctx ctx' k Hrun). Qed.

Lemma store_items_length n : forall i items arr,
  length (store_items i n items arr) = length arr.
Proof.
  induction n as [|n IH]; intros i items arr; [reflexivity|].
  destruct items as [|item items]; [reflexivity|]. simpl.
  rewrite IH. apply length_insert.
Qed.

Lemma store_items_lookup n : forall s items arr i,
  store_items s n items arr !! i
  = if decide (s <= i < s + n /\ i < length arr)%nat
    then match items !! (i - s)%nat with
         | Some item => Some (atoi item)
         | None => arr !! i
         end
    else arr !! i.
Proof.
  induction n as [|n IH]; intros s items arr i.
  - simpl. case_decide; [lia|reflexivity].
  - destruct items as [|item items].
    + simpl. case_decide; reflexivity.
    + cbn [store_items]. rewrite IH, length_insert.
      destruct (decide (i = s)) as [->|Hne].
      * rewrite Nat.sub_diag. cbn [lookup list_lookup].
        case_decide; [lia|]. case_decide.
        -- apply list_lookup_insert_eq. lia.
        -- rewrite list_insert_ge by lia. reflexivity.
      * rewrite list_lookup_insert_ne by auto.
        case_decide; case_decide; try lia; try reflexivity.
        replace (i - s)%nat with (S (i - S s)) by lia. reflexivity.
Qed.

(** [_parse_general] with a [system_volume] string, on the three-element
    volume array: the array keeps its size, each of the three slots gets
    the [atoi] of the piece at its position when there is one and keeps
    its old value otherwise; what [atoi] gives always fits an [int] and is
    the number written whenever that number fits; the search paths are
    those of the general group; definitions and events are not touched. *)
Theorem _parse_general_system_volume (ctx : Context) (k : GKeyFile) (value : string)
    (Hvalue : get_string_or_null k GROUP_GENERAL "system_volume" = Some value)
    (Harray : length (system_volume ctx) = 3%nat) :
  exists ctx',
    _parse_general ctx k = Returns ctx' /\
    length (system_volume ctx') = 3%nat /\
    (forall i, (i < 3)%nat ->
       system_volume ctx' !! i
       = match g_strsplit value ";"%char (-1) !! i with
         | Some item => Some (atoi item)
         | None => system_volume ctx !! i
         end) /\
    (forall item,
       -2147483648 <= atoi item <= 2147483647 /\
       (-2147483648 <= decimal_prefix item <= 2147483647 ->
        atoi item = decimal_prefix item)) /\
    sound_path ctx' = get_string_or_null k GROUP_GENERAL "sound_search_path" /\
    patterns_path ctx' = get_string_or_null k GROUP_GENERAL "vibration_search_path" /\
    definitions ctx' = definitions ctx /\
    ctx_events ctx' = ctx_events ctx.
Proof.
  unfold _parse_general. rewrite Hvalue. cbn [g_strsplit_then_deref run_bind].
  eexists. split; [reflexivity|].
  assert (forall c, system_volume (_parse_required_plugins c k) = system_volume c) as Hsv.
  { intros c. unfold _parse_required_plugins.
    destruct (get_string_or_null k GROUP_GENERAL "plugins"); reflexivity. }
  assert (forall c, definitions (_parse_required_plugins c k) = definitions c) as Hdef.
  { intros c. unfold _parse_required_plugins.
    destruct (get_string_or_null k GROUP_GENERAL "plugins"); reflexivity. }
  assert (forall c, ctx_events (_parse_required_plugins c k) = ctx_events c) as Hev.
  { intros c. unfold _parse_required_plugins.
    destruct (get_string_or_null k GROUP_GENERAL "plugins"); reflexivity. }
  cbn [system_volume set_system_volume set_general sound_path patterns_path definitions
       ctx_events].
  rewrite Hsv, Hdef, Hev.
  split; [rewrite store_items_length; assumption|].
  split.
  { intros i Hi. rewrite store_items_lookup. rewrite Harray, Nat.sub_0_r.
    case_decide; [reflexivity|lia]. }
  split; [intros item; split; [apply atoi_range|apply atoi_in_range]|].
  repeat split.
Qed.

Lemma _parse_general_system_volume_witness :
  exists ctx',
    _parse_general empty_context chain_conf = Returns ctx' /\
    system_volume ctx' !! 0%nat = Some 10 /\
    system_volume ctx' !! 1%nat = Some 20 /\
    system_volume ctx' !! 2%nat = Some 0.
Proof.
  destruct (_parse_general_system_volume empty_context chain_conf "10;20" eq_refl eq_refl)
    as (ctx' & Hrun & _ & Hall & _).
  exists ctx'. split; [exact Hrun|].
  split; [|split].
  - exact (Hall 0%nat ltac:(lia)).
  - exact (Hall 1%nat ltac:(lia)).
  - exact (Hall 2%nat ltac:(lia)).
Defined.

Lemma _parse_general_paths ctx k ctx1 :
  _parse_general ctx k = Returns ctx1 ->
  is_Some (get_string_or_null k GROUP_GENERAL "system_volume") /\
  sound_path ctx1 = get_string_or_null k GROUP_GENERAL "sound_search_path" /\
  patterns_path ctx1 = get_string_or_null k GROUP_GENERAL "vibration_search_path".
Proof.
  unfold _parse_general.
  destruct (get_string_or_null k GROUP_GENERAL "system_volume") as [value|]; [|discriminate].
  cbn [g_strsplit_then_deref run_bind]. intros [= <-]. split; [eauto|]. split; reflexivity.
Qed.

(** When [load_settings] returns success, a candidate file was loaded, its
    general group has a [system_volume], the search paths are those of
    that group, and every event name of the file is bound to the event of
    its [resolved_set]. *)
Theorem load_settings_events (fuel : nat) (w : World) (ctx ctx' : Context)
    (Hrun : load_settings fuel w ctx = Returns (true, ctx')) :
  exists k,
    first_loadable w conf_files = Some k /\
    is_Some (get_string_or_null k GROUP_GENERAL "system_volume") /\
    sound_path ctx' = get_string_or_null k GROUP_GENERAL "sound_search_path" /\
    patterns_path ctx' = get_string_or_null k GROUP_GENERAL "vibration_search_path" /\
    forall name, is_Some (build_groups k !! name) ->
      exists v f,
        resolved_set f (build_groups k) k name = Some v /\
        ctx_events ctx' !! name
        = Some (event_of_props w (sound_path ctx') (patterns_path ctx') v).
Proof.
  unfold load_settings in Hrun.
  destruct (first_loadable w conf_files) as [k|]; [|discriminate].
  destruct (_parse_general ctx k) as [ctx1| |] eqn:Hgen; try discriminate.
  cbn [run_bind] in Hrun.
  destruct (_parse_events fuel w (_parse_definitions ctx1 k) k) as [ctx3| |] eqn:Hev;
    try discriminate.
  cbn [run_bind] in Hrun. injection Hrun as <-.
  destruct (_parse_general_paths _ _ _ Hgen) as (Hvol & Hsp & Hpp).
  destruct (_parse_definitions_as_collect k ctx1) as (_ & _ & Hpp2 & Hsp2 & _).
  destruct (_parse_events_bindings _ _ _ _ _ Hev) as ((_ & Hpp3 & Hsp3 & _) & Hall & _).
  exists k. split; [reflexivity|]. split; [assumption|].
  split; [congruence|]. split; [congruence|].
  intros name Hg. destruct (Hall name Hg) as (v & f & Hf & Hl).
  exists v, f. split; [assumption|]. rewrite Hl, Hsp3, Hpp3. reflexivity.
Qed.

Lemma load_settings_events_witness :
  exists ctx' v f,
    load_settings 3 chain_world empty_context = Returns (true, ctx') /\
    resolved_set f (build_groups chain_conf) chain_conf "beep" = Some v /\
    ctx_events ctx' !! "beep"
    = Some (event_of_props chain_world (sound_path ctx') (patterns_path ctx') v).
Proof.
  destruct (load_settings 3 chain_world empty_context) as [[[|] ctx']| |] eqn:Hrun;
    try (exfalso; vm_compute in Hrun; discriminate).
  destruct (load_settings_events 3 chain_world empty_context ctx' Hrun)
    as (k & Hk & _ & _ & _ & Hall).
  injection Hk as <-.
  destruct (Hall "beep") as (v & f & Hf & Hl); [exists "event beep@call"; reflexivity|].
  exists ctx', v, f. auto.
Defined.

(** Cyclic inheritance: if the loaded key file has a set of event names
    each declaring a parent in the set, then for every bound the call on
    such a name does not return, [_parse_events] does not return, and
    [load_settings] does not return. *)
Theorem cyclic_inheritance_never_returns (w : World) (k : GKeyFile)
    (P : string -> Prop) (name : string)
    (Hload : first_loadable w conf_files = Some k)
    (Hclosed : forall n, P n ->
       exists g p, build_groups k !! n = Some g /\ _parse_group_parent g = Some p /\ P p)
    (Hname : P name) :
  forall fuel ctx,
    _parse_single_event fuel (build_groups k) k initial_resolver name = None /\
    _parse_events fuel w ctx k = OutOfFuel /\
    forall result, load_settings fuel w ctx <> Returns result.
Proof.
  assert (forall n, P n ->
            (n ∉ events_done initial_resolver) /\
            exists g p, build_groups k !! n = Some g /\
                        _parse_group_parent g = Some p /\ P p) as Hc.
  { intros n Hn. split; [inversion 1|auto]. }
  assert (forall fuel ctx, _parse_events fuel w ctx k = OutOfFuel) as Hev.
  { intros fuel ctx. unfold _parse_events.
    rewrite (resolve_all_cycle (build_groups k) k P fuel _ initial_resolver name Hc Hname);
      [reflexivity|].
    destruct (Hclosed name Hname) as (g & p & Hg & _).
    apply list_elem_of_fmap. exists (name, g). split; [reflexivity|].
    apply elem_of_map_to_list. assumption. }
  intros fuel ctx. split; [exact (resolve_cycle _ _ P _ Hc fuel name Hname)|].
  split; [apply Hev|].
  intros result. unfold load_settings. rewrite Hload.
  destruct (_parse_general ctx k) as [ctx1| |]; cbn [run_bind]; try discriminate.
  rewrite Hev. discriminate.
Qed.

Lemma cyclic_inheritance_never_returns_witness :
  _parse_events 1000 cyclic_world empty_context cyclic_conf = OutOfFuel.
Proof.
  apply (cyclic_inheritance_never_returns cyclic_world cyclic_conf
           (fun n => n = "a" \/ n = "b") "a" eq_refl).
  - intros n [-> | ->].
    + exists "event a@b", "b". repeat split; auto.
    + exists "event b@a", "a". repeat split; auto.
  - left. reflexivity.
Defined.

Lemma resolution_is_a_function_of_the_key_file_witness :
  exists st v f,
    resolve_all 3 (build_groups chain_conf) chain_conf initial_resolver ["beep"; "root"]
    = Some st /\
    sd_events st !! "beep" = Some v /\
    resolved_set f (build_groups chain_conf) chain_conf "beep" = Some v.
Proof.
  destruct (resolve_all 3 (build_groups chain_conf) chain_conf initial_resolver
              ["beep"; "root"]) as [st|] eqn:Hpass;
    [|exfalso; vm_compute in Hpass; discriminate].
  destruct (resolution_is_a_function_of_the_key_file _ _ _ _ _ Hpass) as (_ & Hall & _).
  destruct (Hall "beep") as (v & f & Hv & Hf).
  - apply list_elem_of_here.
  - exists "event beep@call". reflexivity.
  - exists st, v, f. auto.
Defined.

Lemma resolved_sets_have_the_schema_keys_witness :
  is_Some (scan_entries base_conf "event base" true !! "led_pattern") /\
  scan_entries base_conf "event base" true !! "colour" = None.
Proof.
  assert (resolve_all 1 (build_groups base_conf) base_conf initial_resolver ["base"]
          = Some (mkResolver (<[ "base" := Some (scan_entries base_conf "event base" true)]> ∅)
                             ["base"])) as Hpass by (vm_compute; reflexivity).
  pose proof (resolved_sets_have_the_schema_keys _ _ _ _ _ "base"
                (scan_entries base_conf "event base" true) Hpass
                (lookup_insert_eq _ _ _)) as Hkeys.
  split.
  - apply Hkeys. repeat first [apply list_elem_of_here | apply list_elem_of_further].
  - destruct (scan_entries base_conf "event base" true !! "colour") eqn:Hc; [|reflexivity].
    exfalso. assert ("colour" ∈ map ke_key event_entries) as Hin by (apply Hkeys; eauto).
    revert Hin. apply (bool_decide_unpack _). vm_compute. reflexivity.
Defined.

Lemma derived_event_overlays_parent_witness :
  exists st' proplist,
    _parse_single_event 2 (build_groups base_conf) base_conf initial_resolver "right"
    = Some st' /\
    sd_events st' !! "right" = Some (Some proplist) /\
    proplist !! "max_timeout" = Some (NInt 7) /\
    proplist !! "audio_enabled" = Some (NBool true).
Proof.
  assert (_parse_single_event 1 (build_groups base_conf) base_conf initial_resolver "base"
          = Some (mkResolver (<[ "base" := Some (scan_entries base_conf "event base" true)]> ∅)
                             ["base"])) as H1 by (vm_compute; reflexivity).
  destruct (derived_event_overlays_parent (build_groups base_conf) base_conf 1
              initial_resolver _ "right" "event right@base" "base"
              (scan_entries base_conf "event base" true)
              eq_refl eq_refl eq_refl H1 (lookup_insert_eq _ _ _))
    as (st' & proplist & Hrun & Hown & _ & Hall & _).
  exists st', proplist. split; [exact Hrun|]. split; [exact Hown|]. split.
  - etransitivity.
    + apply (Hall (mkKeyEntry KEY_ENTRY_TYPE_INT "max_timeout" 0 None)).
      repeat first [apply list_elem_of_here | apply list_elem_of_further].
    + vm_compute. reflexivity.
  - etransitivity.
    + apply (Hall (mkKeyEntry KEY_ENTRY_TYPE_BOOL "audio_enabled" 0 None)).
      repeat first [apply list_elem_of_here | apply list_elem_of_further].
    + vm_compute. reflexivity.
Defined.

Lemma _parse_events_materialises_witness :
  exists ctx' v f,
    _parse_events 3 chain_world empty_context chain_conf = Returns ctx' /\
    resolved_set f (build_groups chain_conf) chain_conf "call" = Some v /\
    ctx_events ctx' !! "call" = Some (event_of_props chain_world None None v).
Proof.
  destruct (_parse_events 3 chain_world empty_context chain_conf) as [ctx'| |] eqn:Hrun;
    try (exfalso; vm_compute in Hrun; discriminate).
  destruct (_parse_events_materialises _ _ _ _ _ Hrun) as (_ & Hall & _).
  destruct (Hall "call") as (v & f & Hf & Hl); [exists "event call@root"; reflexivity|].
  exists ctx', v, f. auto.
Defined.

(** One call of [_parse_single_event] keeps the state of a pass sound: the
    done list stays free of repetitions and is only extended, the names
    done are those the table has a set for, the set of a name already done
    is not touched, and the name asked for, when it has a group, has a set
    afterwards. *)
Theorem resolver_invariants_kept (groups : gmap string string) (k : GKeyFile)
    (fuel : nat) (st st' : Resolver) (name : string)
    (Hinv : resolver_inv groups k st)
    (Hnodup : NoDup (events_done st))
    (Hrun : _parse_single_event fuel groups k st name = Some st') :
  resolver_inv groups k st' /\
  NoDup (events_done st') /\
  (exists new, events_done st' = events_done st ++ new) /\
  (forall n, n ∈ events_done st -> sd_events st' !! n = sd_events st !! n) /\
  (is_Some (groups !! name) -> is_Some (sd_events st' !! name)).
Proof.
  pose proof (resolver_inv_preserved _ _ _ _ _ _ Hrun Hinv) as Hinv'.
  destruct (resolve_growth _ _ _ _ _ _ Hrun) as (new & Hd & Hnd & Hfresh & Hsame & Hin).
  split; [assumption|]. split; [|split; [|split]].
  - rewrite Hd. apply NoDup_app. repeat split; try assumption.
    intros x Hx Hx'. exact (proj1 (Hfresh x Hx') Hx).
  - eauto.
  - intros n Hn. apply Hsame. intros Hn'. exact (proj1 (Hfresh n Hn') Hn).
  - intros Hg. destruct Hinv' as (H1 & _). apply H1. auto.
Qed.

Lemma resolver_invariants_kept_witness :
  exists st',
    _parse_single_event 3 (build_groups chain_conf) chain_conf initial_resolver "beep"
    = Some st' /\
    NoDup (events_done st') /\ is_Some (sd_events st' !! "beep").
Proof.
  destruct (_parse_single_event 3 (build_groups chain_conf) chain_conf initial_resolver
              "beep") as [st'|] eqn:Hrun; [|exfalso; vm_compute in Hrun; discriminate].
  destruct (resolver_invariants_kept _ _ _ _ _ _ (resolver_inv_initial _ chain_conf)
              (NoDup_nil_2 : NoDup (events_done initial_resolver)) Hrun)
    as (_ & Hnd & _ & _ & Hin).
  exists st'. split; [reflexivity|]. split; [assumption|].
  apply Hin. exists "event beep@call". reflexivity.
Defined.

Lemma skip_type_tag_append tag rest :
  has_char " "%char tag = false ->
  skip_type_tag (tag +:+ String " "%char rest) = String " "%char rest.
Proof.
  induction tag as [|c t IH]; intros H; [reflexivity|].
  rewrite append_cons. simpl in *. apply orb_false_iff in H as [Hc Ht].
  rewrite Hc. auto.
Qed.

Lemma split_loop_at_first delim name rest :
  has_char delim name = false ->
  split_loop delim 1 (name +:+ String delim rest) = [name; rest].
Proof.
  induction name as [|c n IH]; intros H.
  - change (EmptyString +:+ String delim rest) with (String delim rest).
    simpl. rewrite Ascii.eqb_refl, split_loop_no_cut. reflexivity.
  - rewrite append_cons. simpl in *. apply orb_false_iff in H as [Hc Hn].
    rewrite Hc, (IH Hn). reflexivity.
Qed.

Lemma split_loop_no_delim delim cuts name :
  has_char delim name = false -> split_loop delim cuts name = [name].
Proof.
  induction name as [|c n IH]; intros H; [reflexivity|].
  simpl in *. apply orb_false_iff in H as [Hc Hn].
  destruct (cuts <=? 0); [reflexivity|]. rewrite Hc, (IH Hn). reflexivity.
Qed.

Lemma append_empty_r s : s +:+ EmptyString = s.
Proof.
  induction s as [|c s IH]; [reflexivity|]. rewrite append_cons. congruence.
Qed.

Lemma g_strsplit_nonempty s delim max_tokens :
  s <> EmptyString ->
  g_strsplit s delim max_tokens
  = split_loop delim ((if max_tokens <? 1 then G_MAXINT else max_tokens) - 1) s.
Proof. destruct s; [congruence|reflexivity]. Qed.

Lemma _strip_group_type_append tag rest :
  has_char " "%char tag = false -> rest <> EmptyString ->
  _strip_group_type (tag +:+ String " "%char rest) = Some rest.
Proof.
  intros Htag Hrest. unfold _strip_group_type.
  rewrite (skip_type_tag_append _ _ Htag). rewrite Ascii.eqb_refl.
  destruct rest; [congruence|reflexivity].
Qed.

(** Formatting then parsing: for a type tag without a space and a name
    without [@] (non-empty when no parent follows), the identifier
    [tag name[@parent]] parses to that name and that parent. *)
Theorem parse_group_identifier_of_formatted (tag name : string) (parent : option string)
    (Htag : has_char " "%char tag = false)
    (Hname : has_char "@"%char name = false)
    (Hnonempty : parent = None -> name <> EmptyString) :
  parse_group_identifier (tag +:+ String " "%char (name +:+ parent_suffix parent))
  = Some (mkGroupIdentifier name parent).
Proof.
  assert (name +:+ parent_suffix parent <> EmptyString) as Hrest.
  { destruct parent as [p|]; simpl.
    - destruct name; discriminate.
    - rewrite append_empty_r. auto. }
  unfold parse_group_identifier, _parse_group_name, _parse_group_parent.
  rewrite (_strip_group_type_append _ _ Htag Hrest).
  rewrite (g_strsplit_nonempty _ _ _ Hrest).
  change (2 <? 1) with false. cbv iota. change (2 - 1) with 1.
  destruct parent as [p|]; unfold parent_suffix.
  - rewrite (split_loop_at_first _ _ _ Hname). reflexivity.
  - rewrite append_empty_r, (split_loop_no_delim _ _ _ Hname). reflexivity.
Qed.

Lemma parse_group_identifier_of_formatted_witness :
  parse_group_identifier ("event" +:+ String " "%char ("sms" +:+ parent_suffix (Some "base")))
  = Some (mkGroupIdentifier "sms" (Some "base")).
Proof.
  apply parse_group_identifier_of_formatted; [reflexivity|reflexivity|discriminate].
Defined.

(** ** The multi-valued fields *)

Lemma profile_payload_none payload :
  profile_payload payload = None <-> payload = EmptyString.
Proof.
  unfold profile_payload, g_strsplit. destruct payload as [|c r]; [tauto|].
  pose proof (split_loop_nonempty "@"%char ((if 2 <? 1 then G_MAXINT else 2) - 1)
                (String c r)) as Hne.
  destruct (split_loop _ _ _); [congruence|]. split; discriminate.
Qed.

Lemma profile_payload_empty_key profile :
  profile_payload (String "@"%char profile) = Some (EmptyString, Some profile).
Proof.
  unfold profile_payload, g_strsplit. change (2 <? 1) with false. cbv iota.
  change (2 - 1) with 1. cbn [split_loop]. change (1 <=? 0) with false. cbv iota.
  rewrite Ascii.eqb_refl. change (1 - 1) with 0. rewrite split_loop_no_cut. reflexivity.
Qed.

Lemma _check_path_none w path dir :
  _check_path w path dir = None <->
  g_file_test_exists w path = false /\
  g_file_test_exists w (g_build_filename dir path) = false.
Proof.
  unfold _check_path.
  destruct (g_file_test_exists w path); [split; [discriminate|intros [? _]; discriminate]|].
  destruct (g_file_test_exists w (g_build_filename dir path));
    split; try discriminate; auto. intros [_ ?]; discriminate.
Qed.

Lemma append_injective prefix a b : prefix +:+ a = prefix +:+ b -> a = b.
Proof.
  intros H. rewrite <- (advance_append prefix a), <- (advance_append prefix b).
  congruence.
Qed.

Lemma sound_entry_dropped w dir entry :
  sound_entry w dir entry = None <->
  entry = "profile:" \/
  (exists path, entry = "filename:" +:+ path /\
                g_file_test_exists w path = false /\
                g_file_test_exists w (g_build_filename dir path) = false) \/
  (g_str_has_prefix entry "profile:" = false /\
   g_str_has_prefix entry "filename:" = false).
Proof.
  unfold sound_entry, _strip_prefix.
  destruct (g_str_has_prefix entry "profile:") eqn:Hp.
  - pose proof (g_str_has_prefix_split _ _ Hp) as Heq.
    set (payload := advance (String.length "profile:") entry) in *.
    split.
    + intros H. left.
      assert (payload = EmptyString) as ->.
      { apply profile_payload_none. destruct (profile_payload payload) as [[? ?]|]; congruence. }
      exact Heq.
    + intros [->|[(path & -> & _)|[? _]]]; [reflexivity|discriminate|discriminate].
  - destruct (g_str_has_prefix entry "filename:") eqn:Hf.
    + pose proof (g_str_has_prefix_split _ _ Hf) as Heq.
      set (path := advance (String.length "filename:") entry) in *.
      split.
      * intros H. right. left. exists path. split; [exact Heq|].
        apply _check_path_none. destruct (_check_path w path dir); congruence.
      * intros [->|[(path' & Hpath & Hex)|[_ ?]]]; [discriminate| |discriminate].
        assert (path' = path) as -> by (apply (append_injective "filename:"); congruence).
        apply _check_path_none in Hex. rewrite Hex. reflexivity.
    + split; auto.
Qed.

Lemma pattern_entry_dropped w dir entry :
  pattern_entry w dir entry = None <->
  entry = "profile:" \/
  (exists path, entry = "filename:" +:+ path /\
                g_file_test_exists w path = false /\
                g_file_test_exists w (g_build_filename dir path) = false) \/
  (g_str_has_prefix entry "profile:" = false /\
   g_str_has_prefix entry "filename:" = false /\
   g_str_has_prefix entry "internal:" = false).
Proof.
  unfold pattern_entry, _strip_prefix.
  destruct (g_str_has_prefix entry "profile:") eqn:Hp.
  - pose proof (g_str_has_prefix_split _ _ Hp) as Heq.
    set (payload := advance (String.length "profile:") entry) in *.
    split.
    + intros H. left.
      assert (payload = EmptyString) as ->.
      { apply profile_payload_none. destruct (profile_payload payload) as [[? ?]|]; congruence. }
      exact Heq.
    + intros [->|[(path & -> & _)|[? _]]]; [reflexivity|discriminate|discriminate].
  - destruct (g_str_has_prefix entry "filename:") eqn:Hf.
    + pose proof (g_str_has_prefix_split _ _ Hf) as Heq.
      set (path := advance (String.length "filename:") entry) in *.
      split.
      * intros H. right. left. exists path. split; [exact Heq|].
        apply _check_path_none. destruct (_check_path w path dir); congruence.
      * intros [->|[(path' & Hpath & Hex)|(_ & ? & _)]]; [discriminate| |discriminate].
        assert (path' = path) as -> by (apply (append_injective "filename:"); congruence).
        apply _check_path_none in Hex. rewrite Hex. reflexivity.
    + destruct (g_str_has_prefix entry "internal:") eqn:Hi.
      * split; [discriminate|].
        intros [->|[(path' & -> & _)|(_ & _ & ?)]]; discriminate.
      * split; auto.
Qed.

(** C8 (as amended): a sound or vibration field is split on [;], every
    entry is parsed on its own, the entries the parser accepts are
    collected in source order and the others are dropped. The parser
    drops an entry exactly when it is [profile:] with nothing after it,
    when it is a [filename:] entry whose path exists neither as given nor
    under the search directory of its field, or when it has none of the
    prefixes of its field. It keeps a [profile:] entry whose key is empty
    and an [internal:] entry whatever follows the prefix, with the [atoi]
    of that text as pattern number. *)
Theorem multi_valued_fields (w : World) (ctx : Context) (str : string) :
  snd (_create_sound_paths w ctx (Some str))
  = omap (sound_entry w (sound_path ctx)) (g_strsplit str ";"%char (-1)) /\
  snd (_create_patterns w ctx (Some str))
  = omap (pattern_entry w (patterns_path ctx)) (g_strsplit str ";"%char (-1)) /\
  (forall search_path path,
      sound_entry w search_path ("filename:" +:+ path) = None <->
      g_file_test_exists w path = false /\
      g_file_test_exists w (g_build_filename search_path path) = false) /\
  (forall search_path path,
      pattern_entry w search_path ("filename:" +:+ path) = None <->
      g_file_test_exists w path = false /\
      g_file_test_exists w (g_build_filename search_path path) = false) /\
  (forall search_path entry,
      sound_entry w search_path entry = None <->
      entry = "profile:" \/
      (exists path, entry = "filename:" +:+ path /\
                    g_file_test_exists w path = false /\
                    g_file_test_exists w (g_build_filename search_path path) = false) \/
      (g_str_has_prefix entry "profile:" = false /\
       g_str_has_prefix entry "filename:" = false)) /\
  (forall search_path entry,
      pattern_entry w search_path entry = None <->
      entry = "profile:" \/
      (exists path, entry = "filename:" +:+ path /\
                    g_file_test_exists w path = false /\
                    g_file_test_exists w (g_build_filename search_path path) = false) \/
      (g_str_has_prefix entry "profile:" = false /\
       g_str_has_prefix entry "filename:" = false /\
       g_str_has_prefix entry "internal:" = false)) /\
  (forall search_path profile,
      sound_entry w search_path ("profile:@" +:+ profile)
      = Some (mkSoundPath SOUND_PATH_TYPE_PROFILE None (Some profile) (Some EmptyString)) /\
      pattern_entry w search_path ("profile:@" +:+ profile)
      = Some (mkVibrationPattern VIBRATION_PATTERN_TYPE_PROFILE None 0 (Some profile)
                                 (Some EmptyString))) /\
  (forall search_path payload,
      pattern_entry w search_path ("internal:" +:+ payload)
      = Some (mkVibrationPattern VIBRATION_PATTERN_TYPE_INTERNAL None (atoi payload)
                                 None None)).
Proof.
  split; [|split; [|split; [|split; [|split; [|split; [|split]]]]]].
  - unfold _create_sound_paths.
    destruct (g_strsplit str ";"%char (-1)) as [|s l] eqn:Hs; [reflexivity|].
    apply sound_paths_loop_entries.
  - unfold _create_patterns.
    destruct (g_strsplit str ";"%char (-1)) as [|s l] eqn:Hs; [reflexivity|].
    apply patterns_loop_entries.
  - intros search_path path. unfold sound_entry.
    destruct (filename_prefix path) as [-> ->]. rewrite <- _check_path_none.
    destruct (_check_path w path search_path); split; congruence.
  - intros search_path path. unfold pattern_entry.
    destruct (filename_prefix path) as [-> ->]. rewrite <- _check_path_none.
    destruct (_check_path w path search_path); split; congruence.
  - intros. apply sound_entry_dropped.
  - intros. apply pattern_entry_dropped.
  - intros search_path profile.
    assert (_strip_prefix ("profile:@" +:+ profile) "profile:"
            = Some (String "@"%char profile)) as Hs by reflexivity.
    unfold sound_entry, pattern_entry. rewrite Hs, profile_payload_empty_key.
    split; reflexivity.
  - intros search_path payload. reflexivity.
Qed.

(** C8 fails as stated: [profile:@p] has no key and [internal:x] no
    integer, so both fail the grammar of the table, yet both are kept. *)
Lemma entries_kept_against_grammar :
  omap (spec_sound_entry empty_world None) (g_strsplit "profile:@p;profile:x@y" ";"%char (-1))
    = [mkSoundPath SOUND_PATH_TYPE_PROFILE None (Some "y") (Some "x")] /\
  snd (_create_sound_paths empty_world empty_context (Some "profile:@p;profile:x@y"))
    = [mkSoundPath SOUND_PATH_TYPE_PROFILE None (Some "p") (Some "");
       mkSoundPath SOUND_PATH_TYPE_PROFILE None (Some "y") (Some "x")] /\
  omap (spec_pattern_entry empty_world None) (g_strsplit "internal:x;internal:7" ";"%char (-1))
    = [mkVibrationPattern VIBRATION_PATTERN_TYPE_INTERNAL None 7 None None] /\
  snd (_create_patterns empty_world empty_context (Some "internal:x;internal:7"))
    = [mkVibrationPattern VIBRATION_PATTERN_TYPE_INTERNAL None 0 None None;
       mkVibrationPattern VIBRATION_PATTERN_TYPE_INTERNAL None 7 None None].
Proof. repeat split; vm_compute; reflexivity. Qed.

(** ** The volume by prefix *)



